(** * StrMPoleSymplectic4Pass: the straight multipole fourth-order pass

    A shallow embedding of [atintegrators/StrMPoleSymplectic4Pass.c].

    - C [double] is IEEE binary64, embedded as Rocq's primitive [float];
      equality of floats below is Leibniz equality, i.e. identity of the
      binary64 datum.
    - The particle buffer [double *r] is a flat [list double]; particle [c]
      occupies the six cells [c*6 .. c*6+5].  The parameter arrays are
      lists of their own: they do not overlap the buffer.
    - A pointer argument that may be [NULL] is an [option].
    - A read outside an array and an overflow of [int] are undefined in C;
      the embedding returns [None] there.
    - The numerical primitives are defined in [atelem.c], [atlalib.c],
      [driftkick.c] and [quadfringe.c], which are not embedded here.  They
      are the methods of the class [Primitives]: a primitive reads its
      arguments and updates the six cells of the particle it is given.
      Every theorem holds for every instance.  What the pass does with the
      primitives is recorded as a trace of calls next to the state they
      transform.  The methods are total: which entries of its array
      arguments a primitive reads, and whether they exist, belongs to the
      files that are not embedded.  [None] therefore stands for a read
      that the pass makes itself. *)

From Stdlib Require Import ZArith Lia List Permutation.
From Stdlib Require Import Floats.PrimFloat Floats.FloatOps Floats.SpecFloat.
From Stdlib Require Import Uint63.
From stdpp Require Import base option list strings gmap.

Abbreviation double := float.

(** ** Constants (source lines 6-9) *)

#[warnings="-inexact-float"]
Definition DRIFT1 : double := 0.6756035959798286638%float.
#[warnings="-inexact-float"]
Definition DRIFT2 : double := (-0.1756035959798286639)%float.
#[warnings="-inexact-float"]
Definition KICK1 : double := 1.351207191959657328%float.
#[warnings="-inexact-float"]
Definition KICK2 : double := (-1.702414383919314656)%float.

(** [rounds_decimal f neg d k]: [f] is a normal binary64 number of sign [neg]
    whose distance to the decimal [d / 10^k] is at most half a unit in the
    last place, checked in exact integer arithmetic. *)
Definition rounds_decimal (f : double) (neg : bool) (d k : Z) : bool :=
  match Prim2SF f with
  | S754_finite s m e =>
      Bool.eqb s neg
      && (2 ^ 52 <=? Z.pos m)%Z && (Z.pos m <? 2 ^ 53)%Z
      && (e <? 0)%Z
      && (2 * Z.abs (Z.pos m * 10 ^ k - d * 2 ^ (- e)) <=? 10 ^ k)%Z
  | _ => false
  end.

(** ** Scalars *)

Definition INT_MAX : Z := 2147483647.

(** Conversion of a C [int] to [double] (exact on the whole [int] range). *)
Definition double_of_int (z : Z) : double :=
  if (z <? 0)%Z
  then PrimFloat.opp (PrimFloat.of_uint63 (Uint63.of_Z (- z)))
  else PrimFloat.of_uint63 (Uint63.of_Z z).

(** Modelled from the spec: the macro [atIsNaN] of [atelem.c] is missing; the
    spec calls the loss marker "not-a-number", so the test is IEEE [isnan]. *)
Definition atIsNaN (v : double) : bool := PrimFloat.is_nan v.

(** C's [v != 0] on doubles: true for every value but the two zeros. *)
Definition nonzero (v : double) : bool := negb (PrimFloat.eqb v 0%float).

Definition non_null {A : Type} (p : option A) : bool :=
  match p with Some _ => true | None => false end.

(** ** Particle state *)

(** The six cells [r6[0] .. r6[5]] of one particle. *)
Record R6 : Type := mkR6 {
  r_x : double;      (* r6[0] *)
  r_px : double;     (* r6[1] *)
  r_y : double;      (* r6[2] *)
  r_py : double;     (* r6[3] *)
  r_delta : double;  (* r6[4] *)
  r_ct : double      (* r6[5] *)
}.

(** [r6 = r + o]: the six cells at offset [o], if they are all in bounds. *)
Definition get6 (r : list double) (o : nat) : option R6 :=
  a0 ← r !! o; a1 ← r !! (o + 1); a2 ← r !! (o + 2);
  a3 ← r !! (o + 3); a4 ← r !! (o + 4); a5 ← r !! (o + 5);
  Some (mkR6 a0 a1 a2 a3 a4 a5).

Definition set6 (r : list double) (o : nat) (v : R6) : list double :=
  <[o := r_x v]> (<[o + 1 := r_px v]> (<[o + 2 := r_y v]>
  (<[o + 3 := r_py v]> (<[o + 4 := r_delta v]> (<[o + 5 := r_ct v]> r))))).

(** [r6[k]] *)
Definition cell (v : R6) (k : nat) : double :=
  match k with
  | 0 => r_x v | 1 => r_px v | 2 => r_y v | 3 => r_py v | 4 => r_delta v
  | _ => r_ct v
  end.

(** ** The external primitives and the calls made to them *)

Class Primitives : Type := {
  ATaddvv : R6 → list double → R6;
  ATmultmv : R6 → list double → R6;
  checkiflostRectangularAp : R6 → list double → R6;
  checkiflostEllipticalAp : R6 → list double → R6;
  linearQuadFringeElegantEntrance :
    R6 → double → option (list double) → option (list double) → R6;
  QuadFringePassP : R6 → double → R6;
  linearQuadFringeElegantExit :
    R6 → double → option (list double) → option (list double) → R6;
  QuadFringePassN : R6 → double → R6;
  fastdrift : R6 → double → R6;
  strthinkick : R6 → list double → list double → double → Z → R6
}.

(** One call of a primitive on the current particle, with its arguments. *)
Inductive call : Type :=
| Call_ATaddvv (dr : list double)
| Call_ATmultmv (A : list double)
| Call_checkiflostRectangularAp (limits : list double)
| Call_checkiflostEllipticalAp (axes : list double)
| Call_linearQuadFringeElegantEntrance
    (b2 : double) (fringeIntM0 fringeIntP0 : option (list double))
| Call_QuadFringePassP (b2 : double)
| Call_linearQuadFringeElegantExit
    (b2 : double) (fringeIntM0 fringeIntP0 : option (list double))
| Call_QuadFringePassN (b2 : double)
| Call_fastdrift (NormL : double)
| Call_strthinkick (A B : list double) (L : double) (max_order : Z).

Definition exec `{Primitives} (c : call) (r6 : R6) : R6 :=
  match c with
  | Call_ATaddvv dr => ATaddvv r6 dr
  | Call_ATmultmv A => ATmultmv r6 A
  | Call_checkiflostRectangularAp l => checkiflostRectangularAp r6 l
  | Call_checkiflostEllipticalAp l => checkiflostEllipticalAp r6 l
  | Call_linearQuadFringeElegantEntrance b2 m p =>
      linearQuadFringeElegantEntrance r6 b2 m p
  | Call_QuadFringePassP b2 => QuadFringePassP r6 b2
  | Call_linearQuadFringeElegantExit b2 m p =>
      linearQuadFringeElegantExit r6 b2 m p
  | Call_QuadFringePassN b2 => QuadFringePassN r6 b2
  | Call_fastdrift NormL => fastdrift r6 NormL
  | Call_strthinkick A B L max_order => strthinkick r6 A B L max_order
  end.

(** The state reached by a sequence of calls. *)
Definition run `{Primitives} (cs : list call) (r6 : R6) : R6 :=
  fold_left (λ s c, exec c s) cs r6.

(** ** The monad of the loop body

    State: the particle [r6]; output: the calls made; failure: a read
    outside an array (undefined behaviour in C). *)

Definition M (A : Type) : Type := R6 → option (A * R6 * list call).

#[global] Instance M_ret : MRet M := λ A a r6, Some (a, r6, []).

#[global] Instance M_bind : MBind M := λ A B f m r6,
  match m r6 with
  | Some (a, r6', t1) =>
      match f a r6' with
      | Some (b, r6'', t2) => Some (b, r6'', t1 ++ t2)
      | None => None
      end
  | None => None
  end.

Definition get : M R6 := λ r6, Some (r6, r6, []).

Definition invoke `{Primitives} (c : call) : M unit :=
  λ r6, Some (tt, exec c r6, [c]).

(** [a[i]] for a parameter array. *)
Definition load (a : list double) (i : nat) : M double :=
  λ r6, match a !! i with Some v => Some (v, r6, []) | None => None end.

(** [if (p) f(r6, p);] *)
Definition if_ptr `{Primitives} (p : option (list double))
    (f : list double → call) : M unit :=
  match p with Some a => invoke (f a) | None => mret tt end.

(** ** The pass (source lines 31-92) *)

Section Pass.
Context `{Primitives}.

Variables (le : double) (A B : list double) (max_order num_int_steps : Z).
Variables (FringeQuadEntrance FringeQuadExit : Z).
Variables (fringeIntM0 fringeIntP0 : option (list double)).
Variables (T1 T2 R1 R2 RApertures EApertures : option (list double)).

(* lines 43-44 *)
Definition useLinFrEleEntrance : bool :=
  non_null fringeIntM0 && non_null fringeIntP0 && (FringeQuadEntrance =? 2)%Z.
Definition useLinFrEleExit : bool :=
  non_null fringeIntM0 && non_null fringeIntP0 && (FringeQuadExit =? 2)%Z.

(* lines 45-49 *)
Definition SL : double := (le / double_of_int num_int_steps)%float.
Definition L1 : double := (SL * DRIFT1)%float.
Definition L2 : double := (SL * DRIFT2)%float.
Definition K1 : double := (SL * KICK1)%float.
Definition K2 : double := (SL * KICK2)%float.

(* lines 67-77: one slice *)
Definition slice : M unit :=
  r6 ← get;
  let norm := (1 / (1 + r_delta r6))%float in
  let NormL1 := (L1 * norm)%float in
  let NormL2 := (L2 * norm)%float in
  invoke (Call_fastdrift NormL1);;
  invoke (Call_strthinkick A B K1 max_order);;
  invoke (Call_fastdrift NormL2);;
  invoke (Call_strthinkick A B K2 max_order);;
  invoke (Call_fastdrift NormL2);;
  invoke (Call_strthinkick A B K1 max_order);;
  invoke (Call_fastdrift NormL1).

(* line 66: [for (m=0; m < num_int_steps; m++)], [n] iterations left *)
Fixpoint slices (n : nat) : M unit :=
  match n with
  | O => mret tt
  | S n' => slice;; slices n'
  end.

(* lines 60-64 and 79-83: [&&] reads [B[1]] only when the mode is nonzero;
   the [else] belongs to the inner [if] *)
Definition fringe (mode : Z) (useLinFrEle : bool)
    (linear : double → option (list double) → option (list double) → call)
    (hard : double → call) : M unit :=
  if (mode =? 0)%Z then mret tt
  else
    b1 ← load B 1;
    if nonzero b1 then
      if useLinFrEle then invoke (linear b1 fringeIntM0 fringeIntP0)
      else invoke (hard b1)
    else mret tt.

(* lines 54-89: the body of [if(!atIsNaN(r6[0]))] *)
Definition track : M unit :=
  (* misalignment at entrance *)
  if_ptr T1 Call_ATaddvv;;
  if_ptr R1 Call_ATmultmv;;
  (* physical apertures at the entrance of the magnet *)
  if_ptr RApertures Call_checkiflostRectangularAp;;
  if_ptr EApertures Call_checkiflostEllipticalAp;;
  fringe FringeQuadEntrance useLinFrEleEntrance
    Call_linearQuadFringeElegantEntrance Call_QuadFringePassP;;
  (* integrator *)
  slices (Z.to_nat num_int_steps);;
  fringe FringeQuadExit useLinFrEleExit
    Call_linearQuadFringeElegantExit Call_QuadFringePassN;;
  (* physical apertures at the exit of the magnet *)
  if_ptr RApertures Call_checkiflostRectangularAp;;
  if_ptr EApertures Call_checkiflostEllipticalAp;;
  (* misalignment at exit *)
  if_ptr R2 Call_ATmultmv;;
  if_ptr T2 Call_ATaddvv.

(** The batch: the buffer and the calls made, each with its particle. *)
Definition batch : Type := list double * list (nat * call).

(* lines 52-90: one iteration of the particle loop, at index [c].  The
   product [c*6] is an [int]; the cells [r6[0..5]] of a tracked particle
   are read and written by the primitives through the pointer [r6], so a
   tracked particle is taken to have its six cells in the buffer.  The
   pass itself reads [r6[0]] and, in a slice, [r6[4]]: for an element
   with no slice and no optional stage, on which no primitive is called,
   the code needs [r6[0]] only and this definition asks for more. *)
Definition particle (c : nat) (r : list double) : option batch :=
  if (INT_MAX <? Z.of_nat c * 6)%Z then None
  else
    x0 ← r !! (c * 6);
    if atIsNaN x0 then Some (r, [])
    else
      r6 ← get6 r (c * 6);
      match track r6 with
      | Some (_, r6', t) => Some (set6 r (c * 6) r6', pair c <$> t)
      | None => None
      end.

(** The particle loop run over the indices [cs] in the order given. *)
Fixpoint loop (cs : list nat) (r : list double) : option batch :=
  match cs with
  | [] => Some (r, [])
  | c :: cs' =>
      '(r1, t1) ← particle c r;
      '(r2, t2) ← loop cs' r1;
      Some (r2, t1 ++ t2)
  end.

(* line 51: [for (c = 0; c<num_particles; c++)] *)
Definition StrMPoleSymplectic4Pass (r : list double) (num_particles : Z)
    : option batch :=
  loop (seq 0 (Z.to_nat num_particles)) r.

(** ** Call sequences used to state the properties of the pass *)

Definition is_drift_kick (c : call) : bool :=
  match c with Call_fastdrift _ | Call_strthinkick _ _ _ _ => true | _ => false end.

Definition is_aperture_check (c : call) : bool :=
  match c with
  | Call_checkiflostRectangularAp _ | Call_checkiflostEllipticalAp _ => true
  | _ => false
  end.

Definition is_fringe (c : call) : bool :=
  match c with
  | Call_linearQuadFringeElegantEntrance _ _ _ | Call_QuadFringePassP _
  | Call_linearQuadFringeElegantExit _ _ _ | Call_QuadFringePassN _ => true
  | _ => false
  end.

Definition opt_call (p : option (list double)) (f : list double → call)
    : list call :=
  match p with Some a => [f a] | None => [] end.

Definition entrance_misalignment : list call :=
  opt_call T1 Call_ATaddvv ++ opt_call R1 Call_ATmultmv.

Definition exit_misalignment : list call :=
  opt_call R2 Call_ATmultmv ++ opt_call T2 Call_ATaddvv.

Definition rectangular_then_elliptical : list call :=
  opt_call RApertures Call_checkiflostRectangularAp
  ++ opt_call EApertures Call_checkiflostEllipticalAp.

(** The fringe call of one side, given the value [b1] read from [B[1]]. *)
Definition fringe_call (mode : Z) (useLinFrEle : bool)
    (linear : double → option (list double) → option (list double) → call)
    (hard : double → call) (b1 : double) : list call :=
  if (mode =? 0)%Z then []
  else if nonzero b1 then
    [if useLinFrEle then linear b1 fringeIntM0 fringeIntP0 else hard b1]
  else [].

Definition entrance_fringe (b1 : double) : list call :=
  fringe_call FringeQuadEntrance useLinFrEleEntrance
    Call_linearQuadFringeElegantEntrance Call_QuadFringePassP b1.

Definition exit_fringe (b1 : double) : list call :=
  fringe_call FringeQuadExit useLinFrEleExit
    Call_linearQuadFringeElegantExit Call_QuadFringePassN b1.

(** The slice of the spec: with [norm = 1/(1+delta)], in strict order
    drift(L1 norm), kick(K1), drift(L2 norm), kick(K2), drift(L2 norm),
    kick(K1), drift(L1 norm). *)
Definition spec_slice (r6 : R6) : list call :=
  let norm := (1 / (1 + r_delta r6))%float in
  let drift len := Call_fastdrift len in
  let kick strength := Call_strthinkick A B strength max_order in
  [drift (L1 * norm)%float; kick K1; drift (L2 * norm)%float; kick K2;
   drift (L2 * norm)%float; kick K1; drift (L1 * norm)%float].

(** The slice repeated [n] times, each from the state the previous left. *)
Fixpoint spec_integrator (n : nat) (r6 : R6) : list call :=
  match n with
  | O => []
  | S n' => spec_slice r6 ++ spec_integrator n' (run (spec_slice r6) r6)
  end.

(** The calls of the fringe stages: the read of [B[1]] happens when a mode
    is nonzero and is the only way the loop body can go wrong. *)
Definition fringe_calls (mode : Z) (f : double → list call)
    : option (list call) :=
  if (mode =? 0)%Z then Some [] else f <$> B !! 1.

(** All calls made on a tracked particle that starts in state [r6]. *)
Definition pipeline_calls (r6 : R6) : option (list call) :=
  f_in ← fringe_calls FringeQuadEntrance entrance_fringe;
  f_out ← fringe_calls FringeQuadExit exit_fringe;
  let pre := entrance_misalignment ++ rectangular_then_elliptical ++ f_in in
  Some (pre ++ spec_integrator (Z.to_nat num_int_steps) (run pre r6)
        ++ f_out ++ rectangular_then_elliptical ++ exit_misalignment).

(** The coefficient carried by a drift or a kick is one of the four step
    coefficients obtained from the slice length [sl]; the drifts carry it
    multiplied by [1/(1+delta)] for some [delta]. *)
Definition derived_from (sl : double) (e : call) : Prop :=
  match e with
  | Call_fastdrift NormL =>
      ∃ delta : double,
        NormL = (sl * DRIFT1 * (1 / (1 + delta)))%float
        ∨ NormL = (sl * DRIFT2 * (1 / (1 + delta)))%float
  | Call_strthinkick _ _ K _ =>
      K = (sl * KICK1)%float ∨ K = (sl * KICK2)%float
  | _ => True
  end.

(** The slice as the derivation SL = Length/NumIntSteps, L1 = SL*DRIFT1,
    L2 = SL*DRIFT2, K1 = SL*KICK1, K2 = SL*KICK2 gives it, every coefficient
    written out from the element length and the number of slices, for a
    particle whose [r6[4]] is [delta] when the slice starts. *)
Definition derived_slice (delta : double) : list call :=
  let sl := (le / double_of_int num_int_steps)%float in
  let norm := (1 / (1 + delta))%float in
  [Call_fastdrift (sl * DRIFT1 * norm)%float;
   Call_strthinkick A B (sl * KICK1)%float max_order;
   Call_fastdrift (sl * DRIFT2 * norm)%float;
   Call_strthinkick A B (sl * KICK2)%float max_order;
   Call_fastdrift (sl * DRIFT2 * norm)%float;
   Call_strthinkick A B (sl * KICK1)%float max_order;
   Call_fastdrift (sl * DRIFT1 * norm)%float].

(** The slices of a batch: one derived slice for each pair of a particle
    index and the value of its [r6[4]] when the slice starts. *)
Definition derived_slices (s : list (nat * double)) : list (nat * call) :=
  concat ((λ cd, pair cd.1 <$> derived_slice cd.2) <$> s).

(** [m] makes the calls [F r6] on [r6], or fails where [F r6] is [None]. *)
Definition denotes (m : M unit) (F : R6 → option (list call)) : Prop :=
  ∀ r6, m r6 = cs ← F r6; Some (tt, run cs r6, cs).

(** What one iteration of the particle loop does to the six cells. *)
Definition particle_map (r6 : R6) : option R6 :=
  if atIsNaN (r_x r6) then Some r6
  else match track r6 with Some (_, r6', _) => Some r6' | None => None end.

End Pass.

(** ** A reference instance of the primitives

    Used to run the pass on concrete particles.  No general theorem below
    depends on it. *)

Module Reference.

Definition at_ (a : list double) (i : nat) : double := default 0%float (a !! i).

Definition opt_at (p : option (list double)) (i : nat) : double :=
  match p with Some a => at_ a i | None => 0%float end.

(** Modelled from the spec: [ATaddvv] of atlalib.c is missing;
    "applyShift(state, shift[6]): add offset". *)
Definition ATaddvv (r : R6) (dr : list double) : R6 :=
  mkR6 (r_x r + at_ dr 0) (r_px r + at_ dr 1) (r_y r + at_ dr 2)
       (r_py r + at_ dr 3) (r_delta r + at_ dr 4) (r_ct r + at_ dr 5).

Definition row (r : R6) (A : list double) (i : nat) : double :=
  (0 + at_ A i * r_x r + at_ A (i + 6) * r_px r + at_ A (i + 12) * r_y r
   + at_ A (i + 18) * r_py r + at_ A (i + 24) * r_delta r
   + at_ A (i + 30) * r_ct r)%float.

(** Modelled from the spec: [ATmultmv] of atlalib.c is missing;
    "applyTransform(state, matrix[36]): multiply state by a 6x6 matrix"; the
    matrix is taken column by column. *)
Definition ATmultmv (r : R6) (A : list double) : R6 :=
  mkR6 (row r A 0) (row r A 1) (row r A 2) (row r A 3) (row r A 4) (row r A 5).

(** Modelled from the spec: the helper that marks a particle lost is missing;
    the marker is "a designated coordinate set to not-a-number", and the
    coordinate the pass tests is [r6[0]]. *)
Definition markaslost (r : R6) : R6 :=
  mkR6 nan (r_px r) (r_y r) (r_py r) (r_delta r) (r_ct r).

(** Modelled from the spec: [checkiflostRectangularAp] of atelem.c is missing;
    "test current transverse position against limits; on violation, mark
    state lost (sentinel)", with limits [xmin, xmax, ymin, ymax]. *)
Definition checkiflostRectangularAp (r : R6) (limits : list double) : R6 :=
  if (r_x r <? at_ limits 0)%float || (at_ limits 1 <? r_x r)%float
     || (r_y r <? at_ limits 2)%float || (at_ limits 3 <? r_y r)%float
  then markaslost r else r.

(** Modelled from the spec: [checkiflostEllipticalAp] of atelem.c is missing;
    same contract as the rectangular test, for the ellipse whose half axes
    are the first two limits. *)
Definition checkiflostEllipticalAp (r : R6) (axes : list double) : R6 :=
  let xnorm := (r_x r / at_ axes 0)%float in
  let ynorm := (r_y r / at_ axes 1)%float in
  if (1 <=? xnorm * xnorm + ynorm * ynorm)%float then markaslost r else r.

(** Modelled from the spec: [fastdrift] of driftkick.c is missing; "advances
    transverse positions by len scaled by the transverse momenta". *)
Definition fastdrift (r : R6) (NormL : double) : R6 :=
  mkR6 (r_x r + NormL * r_px r) (r_px r) (r_y r + NormL * r_py r)
       (r_py r) (r_delta r) (r_ct r).

Fixpoint horner (i : nat) (x y : double) (A B : list double)
    (ReSum ImSum : double) : double * double :=
  match i with
  | O => (ReSum, ImSum)
  | S i' =>
      horner i' x y A B (ReSum * x - ImSum * y + at_ B i')%float
                        (ImSum * x + ReSum * y + at_ A i')%float
  end.

(** Modelled from the spec: [strthinkick] of driftkick.c is missing;
    "evaluates the complex multipole field polynomial and applies an
    instantaneous momentum kick scaled by strength". *)
Definition strthinkick (r : R6) (A B : list double) (L : double)
    (max_order : Z) : R6 :=
  let n := Z.to_nat max_order in
  let '(ReSum, ImSum) := horner n (r_x r) (r_y r) A B (at_ B n) (at_ A n) in
  mkR6 (r_x r) (r_px r - L * ReSum) (r_y r) (r_py r + L * ImSum)
       (r_delta r) (r_ct r).

(** Modelled from the spec: the hard-edge maps of quadfringe.c are missing;
    "a closed-form nonlinear fringe kick depending only on the local
    quadrupole strength and current transverse coordinates".  The cubic
    thin-lens form below stands in for them; the exit map is the entrance
    map at the opposite strength. *)
Definition QuadFringePassP (r : R6) (b2 : double) : R6 :=
  let u := (b2 / 12)%float in
  let x2 := (r_x r * r_x r)%float in
  let y2 := (r_y r * r_y r)%float in
  let xy := (r_x r * r_y r)%float in
  let gx := (u * (x2 + 3 * y2) * r_x r)%float in
  let gy := (u * (y2 + 3 * x2) * r_y r)%float in
  mkR6 (r_x r + gx)
       (r_px r + 3 * u * (2 * xy * r_py r - (x2 + y2) * r_px r))
       (r_y r - gy)
       (r_py r - 3 * u * (2 * xy * r_px r - (x2 + y2) * r_py r))
       (r_delta r) (r_ct r).

(** Modelled from the spec: the exit counterpart of the hard-edge map, taken
    as the entrance map at strength [- b2]. *)
Definition QuadFringePassN (r : R6) (b2 : double) : R6 :=
  QuadFringePassP r (- b2)%float.

(** Modelled from the spec: the linear-integral maps of quadfringe.c are
    missing; "computes a linear correction to the transfer map using
    precomputed field-integral moments".  A linear thin kick built from the
    moments of index 1 stands in for them. *)
Definition linearQuadFringeElegantEntrance (r : R6) (b2 : double)
    (fringeIntM0 fringeIntP0 : option (list double)) : R6 :=
  let k := (b2 * (opt_at fringeIntM0 1 - opt_at fringeIntP0 1))%float in
  mkR6 (r_x r) (r_px r + k * r_x r) (r_y r) (r_py r - k * r_y r)
       (r_delta r) (r_ct r).

(** Modelled from the spec: the exit counterpart of the linear-integral map,
    with the two vectors exchanged. *)
Definition linearQuadFringeElegantExit (r : R6) (b2 : double)
    (fringeIntM0 fringeIntP0 : option (list double)) : R6 :=
  let k := (b2 * (opt_at fringeIntP0 1 - opt_at fringeIntM0 1))%float in
  mkR6 (r_x r) (r_px r + k * r_x r) (r_y r) (r_py r - k * r_y r)
       (r_delta r) (r_ct r).

Definition primitives : Primitives :=
  Build_Primitives ATaddvv ATmultmv checkiflostRectangularAp
    checkiflostEllipticalAp linearQuadFringeElegantEntrance QuadFringePassP
    linearQuadFringeElegantExit QuadFringePassN fastdrift strthinkick.

End Reference.

(** ** The element record and concrete elements *)

(* lines 11-29.  The structure holds the pointers that the accessors
   returned; the record holds the arrays they point to, which are taken not
   to change while the element is in use. *)
Record elem : Type := mkElem {
  Length : double;
  PolynomA : list double;
  PolynomB : list double;
  MaxOrder : Z;
  NumIntSteps : Z;
  (* optional fields *)
  FringeQuadEntrance : Z;
  FringeQuadExit : Z;
  fringeIntM0 : option (list double);
  fringeIntP0 : option (list double);
  R1 : option (list double);
  R2 : option (list double);
  T1 : option (list double);
  T2 : option (list double);
  RApertures : option (list double);
  EApertures : option (list double)
}.

(* lines 136-141: [trackFunction] on an element that is already built *)
Definition trackFunction `{Primitives} (Elem : elem) (r_in : list double)
    (num_particles : Z) : option batch :=
  StrMPoleSymplectic4Pass (Length Elem) (PolynomA Elem) (PolynomB Elem)
    (MaxOrder Elem) (NumIntSteps Elem) (FringeQuadEntrance Elem)
    (FringeQuadExit Elem) (fringeIntM0 Elem) (fringeIntP0 Elem)
    (T1 Elem) (T2 Elem) (R1 Elem) (R2 Elem)
    (RApertures Elem) (EApertures Elem) r_in num_particles.

Module Examples.

(** The loop body and one iteration of the loop for an element, with the
    reference primitives. *)
Definition track_elem (Elem : elem) : M unit :=
  track (H := Reference.primitives)
    (Length Elem) (PolynomA Elem) (PolynomB Elem)
    (MaxOrder Elem) (NumIntSteps Elem) (FringeQuadEntrance Elem)
    (FringeQuadExit Elem) (fringeIntM0 Elem) (fringeIntP0 Elem)
    (T1 Elem) (T2 Elem) (R1 Elem) (R2 Elem)
    (RApertures Elem) (EApertures Elem).

Definition particle_elem (Elem : elem) (c : nat) (r : list double)
    : option batch :=
  particle (H := Reference.primitives)
    (Length Elem) (PolynomA Elem) (PolynomB Elem)
    (MaxOrder Elem) (NumIntSteps Elem) (FringeQuadEntrance Elem)
    (FringeQuadExit Elem) (fringeIntM0 Elem) (fringeIntP0 Elem)
    (T1 Elem) (T2 Elem) (R1 Elem) (R2 Elem)
    (RApertures Elem) (EApertures Elem) c r.

Definition pass_elem (Elem : elem) (r : list double) (num_particles : Z)
    : option batch :=
  trackFunction (H := Reference.primitives) Elem r num_particles.

Definition buffer_of (b : option batch) : list double :=
  match b with Some (r, _) => r | None => [] end.

Definition calls_of (b : option batch) : list (nat * call) :=
  match b with Some (_, t) => t | None => [] end.

Definition final_of (o : option (unit * R6 * list call)) : R6 :=
  match o with Some (_, r6, _) => r6 | None => mkR6 0 0 0 0 0 0 end.

Definition trace_of (o : option (unit * R6 * list call)) : list call :=
  match o with Some (_, _, t) => t | None => [] end.

(** A quadrupole of unit length cut in one slice, [PolynomB[1] = 1], with
    the given fringe modes and no fringe-integral vector. *)
Definition quadrupole (mode_entrance mode_exit : Z) : elem :=
  mkElem 1 [0; 0]%float [0; 1]%float 1 1 mode_entrance mode_exit
    None None None None None None None None.

(** A field-free element of unit length with a rectangular aperture
    [-1, 1, -1, 1] and an exit translation by 1 in [px]. *)
Definition collimator : elem :=
  mkElem 1 [0]%float [0]%float 0 1 0 0 None None None None
    None (Some [0; 1; 0; 0; 0; 0]%float)
    (Some [-1; 1; -1; 1]%float) None.

(** A field-free element with both apertures. *)
Definition two_apertures : elem :=
  mkElem 1 [0]%float [0]%float 0 1 0 0 None None None None None None
    (Some [-1; 1; -1; 1]%float) (Some [1; 1]%float).

(** A hard-edge element whose [PolynomB] has a single entry, order 0. *)
Definition short_PolynomB : elem :=
  mkElem 1 [0]%float [1]%float 0 1 1 0 None None None None None None
    None None.

(** An element with both fringe modes on and [PolynomB[1] = 0]. *)
Definition no_gradient : elem :=
  mkElem 1 [0; 0]%float [0; 0]%float 1 1 1 2
    (Some [0; 0; 0; 0; 0]%float) (Some [0; 0; 0; 0; 0]%float)
    None None None None None None.

Definition on_axis : R6 := mkR6 0 0 0 0 0 0.
Definition off_axis : R6 := mkR6 0.5 0 0.25 0 0 0.
Definition outside : R6 := mkR6 2 0 0 1 0 0.
Definition only_x_finite : R6 := mkR6 0.5 nan nan nan nan nan.

Definition cells (v : R6) : list double :=
  [r_x v; r_px v; r_y v; r_py v; r_delta v; r_ct v].

(** Two particles, the first one lost on entry. *)
Definition lost_then_alive : list double :=
  [nan; 1; 2; 3; 4; 5]%float ++ cells off_axis.

End Examples.

(** ** Element data and the two entry points (source lines 95-207)

    The accessors of [atelem.c] are not embedded; they are the methods of
    the class [ElemAccess].  Each looks a field of the element data up by
    name; an optional accessor answers the default (a null pointer for an
    array) for a field that is absent.  [None] is an error raised by the
    accessor: the accessor answers no value, and the error is pending until
    a [check_error()] leaves the entry point. *)

Class ElemAccess (atElem : Type) : Type := {
  atGetDouble : atElem → string → option double;
  atGetDoubleArray : atElem → string → option (list double);
  atGetLong : atElem → string → option Z;
  atGetOptionalLong : atElem → string → Z → option Z;
  atGetOptionalDoubleArray : atElem → string → option (option (list double))
}.

(** Conversion of a [long] or a [size_t] to [int] on assignment: values of
    the [int] range are kept, the others wrap around modulo [2^32]. *)
Definition int_of_long (z : Z) : Z := ((z + 2 ^ 31) mod 2 ^ 32 - 2 ^ 31)%Z.

(** The acquisition of the fields.  State: whether an error is pending;
    failure: the entry point has been left. *)
Definition Acq (A : Type) : Type := bool → option (A * bool).

#[global] Instance Acq_ret : MRet Acq := λ A a pending, Some (a, pending).

#[global] Instance Acq_bind : MBind Acq := λ A B f m pending,
  match m pending with
  | Some (a, pending') => f a pending'
  | None => None
  end.

(** A call of an accessor: what it answers is kept in a local variable; an
    error it raises becomes pending. *)
Definition accessor {A : Type} (answer : option A) : Acq (option A) :=
  λ pending,
    Some (answer, match answer with Some _ => pending | None => true end).

(** [check_error();] *)
Definition check_error : Acq unit :=
  λ pending, if pending then None else Some (tt, pending).

(** The value of a local variable, which has one when its accessor did not
    raise. *)
Definition value {A : Type} (variable : option A) : Acq A :=
  λ pending,
    match variable with Some v => Some (v, pending) | None => None end.

(* lines 99-134: the fields are read in this order and stored in the
   element.  [check_error()] follows every read but those of the two
   optional integers (lines 108-109): an error raised there is still
   pending when [fringeIntM0] is read, and is seen by the [check_error()]
   of line 110. *)
Definition make_elem `{ElemAccess atElem} (ElemData : atElem) : option elem :=
  let acquisition : Acq elem :=
    Length ← accessor (atGetDouble ElemData "Length"); check_error;;
    PolynomA ← accessor (atGetDoubleArray ElemData "PolynomA"); check_error;;
    PolynomB ← accessor (atGetDoubleArray ElemData "PolynomB"); check_error;;
    MaxOrder ← accessor (atGetLong ElemData "MaxOrder"); check_error;;
    NumIntSteps ← accessor (atGetLong ElemData "NumIntSteps"); check_error;;
    (* optional fields *)
    FringeQuadEntrance ←
      accessor (atGetOptionalLong ElemData "FringeQuadEntrance" 0);
    FringeQuadExit ← accessor (atGetOptionalLong ElemData "FringeQuadExit" 0);
    fringeIntM0 ← accessor (atGetOptionalDoubleArray ElemData "fringeIntM0");
    check_error;;
    fringeIntP0 ← accessor (atGetOptionalDoubleArray ElemData "fringeIntP0");
    check_error;;
    R1 ← accessor (atGetOptionalDoubleArray ElemData "R1"); check_error;;
    R2 ← accessor (atGetOptionalDoubleArray ElemData "R2"); check_error;;
    T1 ← accessor (atGetOptionalDoubleArray ElemData "T1"); check_error;;
    T2 ← accessor (atGetOptionalDoubleArray ElemData "T2"); check_error;;
    EApertures ← accessor (atGetOptionalDoubleArray ElemData "EApertures");
    check_error;;
    RApertures ← accessor (atGetOptionalDoubleArray ElemData "RApertures");
    check_error;;
    (* lines 118-134 *)
    Length ← value Length;
    PolynomA ← value PolynomA;
    PolynomB ← value PolynomB;
    MaxOrder ← value MaxOrder;
    NumIntSteps ← value NumIntSteps;
    FringeQuadEntrance ← value FringeQuadEntrance;
    FringeQuadExit ← value FringeQuadExit;
    fringeIntM0 ← value fringeIntM0;
    fringeIntP0 ← value fringeIntP0;
    R1 ← value R1;
    R2 ← value R2;
    T1 ← value T1;
    T2 ← value T2;
    EApertures ← value EApertures;
    RApertures ← value RApertures;
    mret (mkElem Length PolynomA PolynomB
            (int_of_long MaxOrder) (int_of_long NumIntSteps)
            (int_of_long FringeQuadEntrance) (int_of_long FringeQuadExit)
            fringeIntM0 fringeIntP0 R1 R2 T1 T2 RApertures EApertures) in
  fst <$> acquisition false.

(* lines 95-142: the whole of [trackFunction]; [trackFunction] above is its
   last two statements.  The result is the element returned (none when an
   accessor raised) and what the pass made of the buffer. *)
Definition trackFunction_ElemData `{Primitives} `{ElemAccess atElem}
    (ElemData : atElem) (Elem : option elem) (r_in : list double)
    (num_particles : Z) : option (elem * option batch) :=
  Elem' ← match Elem with
          | Some e => Some e
          | None => make_elem ElemData
          end;
  Some (Elem', trackFunction Elem' r_in num_particles).

(** The part of the MATLAB interface that [mexFunction] uses on its second
    argument: the number of columns and the data of a real matrix. *)
Class Matlab (mxArray : Type) : Type := {
  mxGetN : mxArray → Z;
  mxGetPr : mxArray → list double
}.

(** What [mexFunction] leaves to MATLAB: the tracked copy of its second
    argument, the two cell arrays of field names, or an error message.  An
    empty cell is [None]. *)
Inductive mexResult (mxArray : Type) : Type :=
| mexTracked (particles : mxArray) (out : option batch)
| mexFieldLists (required : list (option string))
    (optional : option (list (option string)))
| mexError (id msg : string).
Arguments mexTracked {mxArray} particles out.
Arguments mexFieldLists {mxArray} required optional.
Arguments mexError {mxArray} id msg.

Definition mxCreateCellMatrix (m n : nat) : list (option string) :=
  replicate (m * n) None.

Definition mxSetCell (c : list (option string)) (i : nat) (s : string)
    : list (option string) :=
  <[i := Some s]> c.

(* lines 149-207; [nrhs] is the length of [prhs].  Here [check_error()]
   follows every read (lines 158-173), and the number of columns, a
   [size_t], is assigned to an [int] (line 154). *)
Definition mexFunction `{Primitives} `{ElemAccess mxArray} `{Matlab mxArray}
    (nlhs : Z) (prhs : list mxArray) : option (mexResult mxArray) :=
  match prhs with
  | [ElemData; particles] =>
      let num_particles := int_of_long (mxGetN particles) in
      let tracking : Acq (mexResult mxArray) :=
        Length ← accessor (atGetDouble ElemData "Length"); check_error;;
        PolynomA ← accessor (atGetDoubleArray ElemData "PolynomA");
        check_error;;
        PolynomB ← accessor (atGetDoubleArray ElemData "PolynomB");
        check_error;;
        MaxOrder ← accessor (atGetLong ElemData "MaxOrder"); check_error;;
        NumIntSteps ← accessor (atGetLong ElemData "NumIntSteps");
        check_error;;
        (* optional fields *)
        FringeQuadEntrance ←
          accessor (atGetOptionalLong ElemData "FringeQuadEntrance" 0);
        check_error;;
        FringeQuadExit ←
          accessor (atGetOptionalLong ElemData "FringeQuadExit" 0);
        check_error;;
        fringeIntM0 ←
          accessor (atGetOptionalDoubleArray ElemData "fringeIntM0");
        check_error;;
        fringeIntP0 ←
          accessor (atGetOptionalDoubleArray ElemData "fringeIntP0");
        check_error;;
        R1 ← accessor (atGetOptionalDoubleArray ElemData "R1"); check_error;;
        R2 ← accessor (atGetOptionalDoubleArray ElemData "R2"); check_error;;
        T1 ← accessor (atGetOptionalDoubleArray ElemData "T1"); check_error;;
        T2 ← accessor (atGetOptionalDoubleArray ElemData "T2"); check_error;;
        EApertures ←
          accessor (atGetOptionalDoubleArray ElemData "EApertures");
        check_error;;
        RApertures ←
          accessor (atGetOptionalDoubleArray ElemData "RApertures");
        check_error;;
        (* the output is a copy of the input, tracked in place *)
        let r_in := mxGetPr particles in
        Length ← value Length;
        PolynomA ← value PolynomA;
        PolynomB ← value PolynomB;
        MaxOrder ← value MaxOrder;
        NumIntSteps ← value NumIntSteps;
        FringeQuadEntrance ← value FringeQuadEntrance;
        FringeQuadExit ← value FringeQuadExit;
        fringeIntM0 ← value fringeIntM0;
        fringeIntP0 ← value fringeIntP0;
        R1 ← value R1;
        R2 ← value R2;
        T1 ← value T1;
        T2 ← value T2;
        EApertures ← value EApertures;
        RApertures ← value RApertures;
        mret (mexTracked particles
                (StrMPoleSymplectic4Pass Length PolynomA PolynomB
                   (int_of_long MaxOrder) (int_of_long NumIntSteps)
                   (int_of_long FringeQuadEntrance)
                   (int_of_long FringeQuadExit)
                   fringeIntM0 fringeIntP0 T1 T2 R1 R2 RApertures EApertures
                   r_in num_particles)) in
      fst <$> tracking false
  | [] =>
      (* list of required fields *)
      let required :=
        mxSetCell (mxSetCell (mxSetCell (mxSetCell (mxSetCell
          (mxCreateCellMatrix 5 1) 0 "Length") 1 "PolynomA") 2 "PolynomB")
          3 "MaxOrder") 4 "NumIntSteps" in
      Some (mexFieldLists required
              (if (1 <? nlhs)%Z then
                 (* list of optional fields *)
                 Some (mxSetCell (mxSetCell (mxSetCell (mxSetCell (mxSetCell
                         (mxSetCell (mxSetCell (mxSetCell (mxSetCell (mxSetCell
                           (mxCreateCellMatrix 10 1)
                           0 "FringeQuadEntrance") 1 "FringeQuadExit")
                           2 "fringeIntM0") 3 "fringeIntP0") 4 "T1") 5 "T2")
                           6 "R1") 7 "R2") 8 "RApertures") 9 "EApertures")
               else None))
  | _ => Some (mexError "AT:WrongArg" "Needs 0 or 2 arguments")
  end.

(** Two element data answer every accessor alike on the field [name]. *)
Definition same_field `{ElemAccess atElem} (e1 e2 : atElem) (name : string)
    : Prop :=
  atGetDouble e1 name = atGetDouble e2 name
  ∧ atGetDoubleArray e1 name = atGetDoubleArray e2 name
  ∧ atGetLong e1 name = atGetLong e2 name
  ∧ (∀ d, atGetOptionalLong e1 name d = atGetOptionalLong e2 name d)
  ∧ atGetOptionalDoubleArray e1 name = atGetOptionalDoubleArray e2 name.

(** ** Further notions used to state properties of the pass *)

Definition is_misalignment (c : call) : bool :=
  match c with Call_ATaddvv _ | Call_ATmultmv _ => true | _ => false end.

(** When each fringe call may occur: the linear-integral map only in mode 2
    with both vectors given, and then with these vectors; the hard-edge map
    in every other nonzero mode; both only with the value [b] read from
    [B[1]], not zero. *)
Definition fringe_choice (FringeQuadEntrance FringeQuadExit : Z)
    (fringeIntM0 fringeIntP0 : option (list double)) (B : list double)
    (e : call) : Prop :=
  match e with
  | Call_linearQuadFringeElegantEntrance b m p =>
      FringeQuadEntrance = 2%Z ∧ is_Some fringeIntM0 ∧ is_Some fringeIntP0
      ∧ m = fringeIntM0 ∧ p = fringeIntP0
      ∧ B !! 1 = Some b ∧ nonzero b = true
  | Call_QuadFringePassP b =>
      FringeQuadEntrance ≠ 0%Z
      ∧ (FringeQuadEntrance ≠ 2%Z ∨ fringeIntM0 = None ∨ fringeIntP0 = None)
      ∧ B !! 1 = Some b ∧ nonzero b = true
  | Call_linearQuadFringeElegantExit b m p =>
      FringeQuadExit = 2%Z ∧ is_Some fringeIntM0 ∧ is_Some fringeIntP0
      ∧ m = fringeIntM0 ∧ p = fringeIntP0
      ∧ B !! 1 = Some b ∧ nonzero b = true
  | Call_QuadFringePassN b =>
      FringeQuadExit ≠ 0%Z
      ∧ (FringeQuadExit ≠ 2%Z ∨ fringeIntM0 = None ∨ fringeIntP0 = None)
      ∧ B !! 1 = Some b ∧ nonzero b = true
  | _ => True
  end.

(** The calls of the particles of a second buffer, renumbered after the
    [k] particles of a first one. *)
Definition renumber (k : nat) (t : list (nat * call)) : list (nat * call) :=
  (λ ce, (k + ce.1, ce.2)) <$> t.

(** ** More concrete elements *)

Module MoreExamples.

Definition identity6 : list double :=
  [1; 0; 0; 0; 0; 0;  0; 1; 0; 0; 0; 0;  0; 0; 1; 0; 0; 0;
   0; 0; 0; 1; 0; 0;  0; 0; 0; 0; 1; 0;  0; 0; 0; 0; 0; 1]%float.

(** A field-free element with the four misalignment arrays. *)
Definition misaligned : elem :=
  mkElem 1 [0]%float [0]%float 0 1 0 0 None None
    (Some identity6) (Some identity6)
    (Some [0.5; 0; 0; 0; 0; 0]%float) (Some [-0.5; 0; 0; 0; 0; 0]%float)
    None None.

(** A quadrupole with both integral vectors, mode 2 at the entrance and
    mode 3 at the exit. *)
Definition modes_2_and_3 : elem :=
  mkElem 1 [0; 0]%float [0; 1]%float 1 1 2 3
    (Some [0; 0.5; 0; 0; 0]%float) (Some [0; 0.25; 0; 0; 0]%float)
    None None None None None None.

(** A quadrupole with hard-edge fringes and no slice. *)
Definition no_steps : elem :=
  mkElem 1 [0; 0]%float [0; 1]%float 1 0 1 1
    None None None None None None None None.

End MoreExamples.

(** ** Element data as a finite map, for concrete runs *)

Module ConcreteData.

Inductive field : Type :=
| F_double (d : double)
| F_array (a : list double)
| F_long (z : Z).

(** MATLAB values: a structure of fields, or a real matrix given by its
    numbers of rows and columns and its data. *)
Inductive mx : Type :=
| mx_struct (fields : gmap string field)
| mx_matrix (rows cols : Z) (pr : list double).

Definition fields_of (e : mx) : gmap string field :=
  match e with mx_struct f => f | mx_matrix _ _ _ => ∅ end.

(** Modelled from the spec: the accessors of atelem.c are missing; "field
    lookup, type/shape checking, default substitution". *)
Definition access : ElemAccess mx := {|
  atGetDouble e name :=
    match fields_of e !! name with Some (F_double d) => Some d | _ => None end;
  atGetDoubleArray e name :=
    match fields_of e !! name with Some (F_array a) => Some a | _ => None end;
  atGetLong e name :=
    match fields_of e !! name with Some (F_long z) => Some z | _ => None end;
  atGetOptionalLong e name default_value :=
    match fields_of e !! name with
    | Some (F_long z) => Some z
    | None => Some default_value
    | Some _ => None
    end;
  atGetOptionalDoubleArray e name :=
    match fields_of e !! name with
    | Some (F_array a) => Some (Some a)
    | None => Some None
    | Some _ => None
    end
|}.

Definition matlab : Matlab mx := {|
  mxGetN e := match e with mx_matrix _ cols _ => cols | mx_struct _ => 0%Z end;
  mxGetPr e := match e with mx_matrix _ _ pr => pr | mx_struct _ => [] end
|}.

(** The five required fields of a drift-like multipole: unit length, order
    1, two slices, [PolynomB] with the one entry [b0]. *)
Definition minimal : gmap string field :=
  <["Length" := F_double 1]> (<["PolynomA" := F_array [0]%float]>
  (<["PolynomB" := F_array [0]%float]> (<["MaxOrder" := F_long 0]>
  (<["NumIntSteps" := F_long 2]> ∅)))).

(** The same with hard-edge fringes asked on both sides and a quadrupole
    term. *)
Definition with_fringes : gmap string field :=
  <["FringeQuadEntrance" := F_long 1]> (<["FringeQuadExit" := F_long 1]>
  (<["PolynomB" := F_array [0; 1]%float]>
  (<["PolynomA" := F_array [0; 0]%float]> (<["MaxOrder" := F_long 1]>
     minimal)))).

Definition one_particle : mx :=
  mx_matrix 6 1 [0.5; 0; 0.25; 0; 0; 0]%float.

End ConcreteData.

(** * Properties of the pass *)

Section Facts.
Context `{Primitives}.

Variables (le : double) (A B : list double) (max_order num_int_steps : Z).
Variables (FringeQuadEntrance FringeQuadExit : Z).
Variables (fringeIntM0 fringeIntP0 : option (list double)).
Variables (T1 T2 R1 R2 RApertures EApertures : option (list double)).

Local Abbreviation useLinFrEleEntrance :=
  (useLinFrEleEntrance FringeQuadEntrance fringeIntM0 fringeIntP0).
Local Abbreviation useLinFrEleExit :=
  (useLinFrEleExit FringeQuadExit fringeIntM0 fringeIntP0).
Local Abbreviation SL := (SL le num_int_steps).
Local Abbreviation L1 := (L1 le num_int_steps).
Local Abbreviation L2 := (L2 le num_int_steps).
Local Abbreviation K1 := (K1 le num_int_steps).
Local Abbreviation K2 := (K2 le num_int_steps).
Local Abbreviation slice := (slice le A B max_order num_int_steps).
Local Abbreviation slices := (slices le A B max_order num_int_steps).
Local Abbreviation fringe := (fringe B fringeIntM0 fringeIntP0).
Local Abbreviation track :=
  (track le A B max_order num_int_steps FringeQuadEntrance FringeQuadExit
     fringeIntM0 fringeIntP0 T1 T2 R1 R2 RApertures EApertures).
Local Abbreviation particle :=
  (particle le A B max_order num_int_steps FringeQuadEntrance FringeQuadExit
     fringeIntM0 fringeIntP0 T1 T2 R1 R2 RApertures EApertures).
Local Abbreviation loop :=
  (loop le A B max_order num_int_steps FringeQuadEntrance FringeQuadExit
     fringeIntM0 fringeIntP0 T1 T2 R1 R2 RApertures EApertures).
Local Abbreviation StrMPoleSymplectic4Pass :=
  (StrMPoleSymplectic4Pass le A B max_order num_int_steps
     FringeQuadEntrance FringeQuadExit
     fringeIntM0 fringeIntP0 T1 T2 R1 R2 RApertures EApertures).
Local Abbreviation entrance_misalignment := (entrance_misalignment T1 R1).
Local Abbreviation exit_misalignment := (exit_misalignment T2 R2).
Local Abbreviation rectangular_then_elliptical :=
  (rectangular_then_elliptical RApertures EApertures).
Local Abbreviation fringe_call := (fringe_call fringeIntM0 fringeIntP0).
Local Abbreviation entrance_fringe :=
  (entrance_fringe FringeQuadEntrance fringeIntM0 fringeIntP0).
Local Abbreviation exit_fringe :=
  (exit_fringe FringeQuadExit fringeIntM0 fringeIntP0).
Local Abbreviation spec_slice := (spec_slice le A B max_order num_int_steps).
Local Abbreviation spec_integrator :=
  (spec_integrator le A B max_order num_int_steps).
Local Abbreviation derived_slice :=
  (derived_slice le A B max_order num_int_steps).
Local Abbreviation derived_slices :=
  (derived_slices le A B max_order num_int_steps).
Local Abbreviation fringe_calls := (fringe_calls B).
Local Abbreviation pipeline_calls :=
  (pipeline_calls le A B max_order num_int_steps
     FringeQuadEntrance FringeQuadExit
     fringeIntM0 fringeIntP0 T1 T2 R1 R2 RApertures EApertures).
Local Abbreviation particle_map :=
  (particle_map le A B max_order num_int_steps
     FringeQuadEntrance FringeQuadExit
     fringeIntM0 fringeIntP0 T1 T2 R1 R2 RApertures EApertures).

(** ** Calls and the states they reach *)

Lemma run_app (c1 c2 : list call) (r6 : R6) :
  run (c1 ++ c2) r6 = run c2 (run c1 r6).
Proof. unfold run. apply fold_left_app. Qed.

Lemma run_nil (r6 : R6) : run [] r6 = r6.
Proof. reflexivity. Qed.

Lemma denotes_ret : denotes (mret tt) (λ _, Some []).
Proof. intros r6. reflexivity. Qed.

Lemma denotes_invoke (c : call) : denotes (invoke c) (λ _, Some [c]).
Proof. intros r6. reflexivity. Qed.

Lemma denotes_if_ptr (p : option (list double)) (f : list double → call) :
  denotes (if_ptr p f) (λ _, Some (opt_call p f)).
Proof. destruct p; intros r6; reflexivity. Qed.

Lemma denotes_seq (m1 m2 : M unit) (F1 F2 : R6 → option (list call)) :
  denotes m1 F1 → denotes m2 F2 →
  denotes (m1;; m2) (λ r6, c1 ← F1 r6; c2 ← F2 (run c1 r6); Some (c1 ++ c2)).
Proof.
  intros D1 D2 r6. unfold mbind, M_bind. rewrite D1.
  destruct (F1 r6) as [c1|]; simpl; [|reflexivity].
  rewrite D2. destruct (F2 (run c1 r6)) as [c2|]; simpl; [|reflexivity].
  by rewrite run_app.
Qed.

Lemma denotes_ext (m : M unit) (F G : R6 → option (list call)) :
  denotes m F → (∀ r6, F r6 = G r6) → denotes m G.
Proof. intros D E r6. rewrite D. by rewrite E. Qed.

Lemma denotes_slice : denotes slice (λ r6, Some (spec_slice r6)).
Proof. intros r6. reflexivity. Qed.

Lemma denotes_slices (n : nat) :
  denotes (slices n) (λ r6, Some (spec_integrator n r6)).
Proof.
  induction n as [|n IH]; [apply denotes_ret|].
  eapply denotes_ext; [exact (denotes_seq _ _ _ _ denotes_slice IH)|].
  intros r6. reflexivity.
Qed.

Lemma denotes_fringe (mode : Z) (useLinFrEle : bool)
    (linear : double → option (list double) → option (list double) → call)
    (hard : double → call) :
  denotes (fringe mode useLinFrEle linear hard)
    (λ _, fringe_calls mode (fringe_call mode useLinFrEle linear hard)).
Proof.
  intros r6. unfold fringe, fringe_calls, fringe_call, load.
  destruct (mode =? 0)%Z; [reflexivity|].
  unfold mbind, M_bind.
  destruct (B !! 1) as [b1|]; simpl; [|reflexivity].
  destruct (nonzero b1); [|reflexivity].
  destruct useLinFrEle; reflexivity.
Qed.

(** The loop body makes exactly the calls of [pipeline_calls], and fails
    exactly where a needed [B[1]] is out of bounds. *)
Lemma track_calls (r6 : R6) :
  track r6 = cs ← pipeline_calls r6; Some (tt, run cs r6, cs).
Proof.
  revert r6. change (denotes track pipeline_calls).
  eapply denotes_ext.
  { unfold track.
    repeat first
      [ apply denotes_seq | apply denotes_if_ptr | apply denotes_fringe
      | apply denotes_slices ]. }
  intros r6. unfold pipeline_calls, entrance_fringe, exit_fringe. simpl.
  destruct (fringe_calls FringeQuadEntrance _) as [f_in|]; simpl;
    [|reflexivity].
  destruct (fringe_calls FringeQuadExit _) as [f_out|]; simpl;
    [|reflexivity].
  f_equal. unfold entrance_misalignment, exit_misalignment,
    rectangular_then_elliptical.
  rewrite !run_app, <- !app_assoc. reflexivity.
Qed.

Lemma track_returns (r6 : R6) :
  (FringeQuadEntrance = 0 ∧ FringeQuadExit = 0)%Z ∨ is_Some (B !! 1) →
  ∃ r6' tr, track r6 = Some (tt, r6', tr).
Proof.
  intros Hb. rewrite track_calls. unfold pipeline_calls, fringe_calls.
  destruct Hb as [[-> ->]|[b1 ->]]; simpl.
  - eauto.
  - destruct (FringeQuadEntrance =? 0)%Z, (FringeQuadExit =? 0)%Z;
      simpl; eauto.
Qed.

(** ** Classifying the calls of a stage *)

Lemma filter_opt_call (f : call → bool) (p : option (list double))
    (g : list double → call) (v : bool) :
  (∀ a, f (g a) = v) →
  List.filter f (opt_call p g) = if v then opt_call p g else [].
Proof.
  intros Hg. destruct p as [a|]; simpl; [|by destruct v].
  rewrite Hg. by destruct v.
Qed.

Lemma filter_fringe_call (f : call → bool) (mode : Z) (useLinFrEle : bool)
    (linear : double → option (list double) → option (list double) → call)
    (hard : double → call) (b1 : double) (v : bool) :
  (∀ b m p, f (linear b m p) = v) → (∀ b, f (hard b) = v) →
  List.filter f (fringe_call mode useLinFrEle linear hard b1)
  = if v then fringe_call mode useLinFrEle linear hard b1 else [].
Proof.
  intros Hl Hh. unfold fringe_call.
  destruct (mode =? 0)%Z; [by destruct v|].
  destruct (nonzero b1); [|by destruct v].
  destruct useLinFrEle; simpl; rewrite ?Hl, ?Hh; by destruct v.
Qed.

Lemma spec_integrator_S (n : nat) (r6 : R6) :
  spec_integrator (S n) r6
  = spec_slice r6 ++ spec_integrator n (run (spec_slice r6) r6).
Proof. reflexivity. Qed.

Lemma filter_spec_integrator (f : call → bool) (v : bool) (n : nat) (r6 : R6) :
  (∀ c, is_drift_kick c = true → f c = v) →
  List.filter f (spec_integrator n r6)
  = if v then spec_integrator n r6 else [].
Proof.
  intros Hf. revert r6. induction n as [|n IH]; intros r6; [by destruct v|].
  rewrite spec_integrator_S, List.filter_app, IH.
  unfold spec_slice. cbn [List.filter].
  rewrite !Hf by reflexivity. by destruct v.
Qed.

Lemma length_spec_integrator (n : nat) (r6 : R6) :
  length (spec_integrator n r6) = 7 * n.
Proof.
  revert r6. induction n as [|n IH]; intros r6; [reflexivity|].
  rewrite spec_integrator_S, length_app, IH.
  unfold spec_slice. simpl. lia.
Qed.

Ltac filter_stages :=
  rewrite ?List.filter_app;
  unfold entrance_misalignment, exit_misalignment,
    rectangular_then_elliptical, entrance_fringe, exit_fringe;
  rewrite ?List.filter_app;
  repeat first
    [ rewrite (filter_opt_call _ _ _ false) by (intros; reflexivity)
    | rewrite (filter_opt_call _ _ _ true) by (intros; reflexivity)
    | rewrite (filter_fringe_call _ _ _ _ _ _ false) by (intros; reflexivity)
    | rewrite (filter_fringe_call _ _ _ _ _ _ true) by (intros; reflexivity)
    | rewrite (filter_spec_integrator _ false) by (by intros [])
    | rewrite (filter_spec_integrator _ true) by (by intros []) ];
  cbn [app]; rewrite ?app_nil_r.

(** The calls of a successful loop body, with the value read from [B[1]]
    when a fringe mode asked for it. *)
Lemma track_Some (r6 r6' : R6) (tr : list call) :
  track r6 = Some (tt, r6', tr) →
  ∃ f_in f_out,
    let pre := entrance_misalignment ++ rectangular_then_elliptical ++ f_in in
    let post := f_out ++ rectangular_then_elliptical ++ exit_misalignment in
    fringe_calls FringeQuadEntrance entrance_fringe = Some f_in
    ∧ fringe_calls FringeQuadExit exit_fringe = Some f_out
    ∧ tr = pre ++ spec_integrator (Z.to_nat num_int_steps) (run pre r6) ++ post
    ∧ r6' = run tr r6.
Proof.
  rewrite track_calls. unfold pipeline_calls.
  destruct (fringe_calls FringeQuadEntrance _) as [f_in|]; simpl; [|done].
  destruct (fringe_calls FringeQuadExit _) as [f_out|]; simpl; [|done].
  intros [= <- <-]. exists f_in, f_out. simpl. done.
Qed.

Lemma fringe_calls_Forall (mode : Z) (f : double → list call)
    (cs : list call) (P : call → Prop) :
  fringe_calls mode f = Some cs → (∀ b1, Forall P (f b1)) → Forall P cs.
Proof.
  unfold fringe_calls. destruct (mode =? 0)%Z.
  - intros [= <-] _. constructor.
  - destruct (B !! 1) as [b1|]; simpl; [|done]. intros [= <-] Hf. apply Hf.
Qed.

Lemma fringe_calls_cases (mode : Z) (f : double → list call)
    (cs : list call) :
  fringe_calls mode f = Some cs →
  (mode = 0%Z ∧ cs = []) ∨ (mode ≠ 0%Z ∧ ∃ b1, B !! 1 = Some b1 ∧ cs = f b1).
Proof.
  unfold fringe_calls. destruct (Z.eqb_spec mode 0) as [->|Hm].
  - intros [= <-]. by left.
  - destruct (B !! 1) as [b1|]; simpl; [|done]. intros [= <-]. right. eauto.
Qed.

Lemma filter_entrance_fringe_calls (f : call → bool) (v : bool)
    (cs : list call) :
  (∀ b m p, f (Call_linearQuadFringeElegantEntrance b m p) = v) →
  (∀ b, f (Call_QuadFringePassP b) = v) →
  fringe_calls FringeQuadEntrance entrance_fringe = Some cs →
  List.filter f cs = if v then cs else [].
Proof.
  intros Hl Hh [[_ ->]|[_ (b1 & _ & ->)]]%fringe_calls_cases.
  - by destruct v.
  - by apply filter_fringe_call.
Qed.

Lemma filter_exit_fringe_calls (f : call → bool) (v : bool)
    (cs : list call) :
  (∀ b m p, f (Call_linearQuadFringeElegantExit b m p) = v) →
  (∀ b, f (Call_QuadFringePassN b) = v) →
  fringe_calls FringeQuadExit exit_fringe = Some cs →
  List.filter f cs = if v then cs else [].
Proof.
  intros Hl Hh [[_ ->]|[_ (b1 & _ & ->)]]%fringe_calls_cases.
  - by destruct v.
  - by apply filter_fringe_call.
Qed.

(** ** The order of the stages *)

(** C3 (amended): the aperture checks made before the slices (entrance) and
    those made after them (exit) are both the rectangular check followed by
    the elliptical check, each present when its limits are; the exit order
    is not reversed. *)
Theorem aperture_checks_rectangular_first_on_both_sides
    (r6 r6' : R6) (tr : list call) :
  track r6 = Some (tt, r6', tr) →
  (∃ pre post,
      tr = pre ++ spec_integrator (Z.to_nat num_int_steps) (run pre r6) ++ post
      ∧ List.filter is_aperture_check pre = rectangular_then_elliptical
      ∧ List.filter is_aperture_check post = rectangular_then_elliptical)
  ∧ List.filter is_aperture_check tr
    = rectangular_then_elliptical ++ rectangular_then_elliptical.
Proof.
  intros (f_in & f_out & Hin & Hout & Htr & _)%track_Some. simpl in Htr.
  assert (Ein : List.filter is_aperture_check f_in = [])
    by (by eapply (filter_entrance_fringe_calls _ false)).
  assert (Eout : List.filter is_aperture_check f_out = [])
    by (by eapply (filter_exit_fringe_calls _ false)).
  assert (Epre : List.filter is_aperture_check
            (entrance_misalignment ++ rectangular_then_elliptical ++ f_in)
          = rectangular_then_elliptical).
  { rewrite !List.filter_app, Ein. filter_stages. reflexivity. }
  assert (Epost : List.filter is_aperture_check
            (f_out ++ rectangular_then_elliptical ++ exit_misalignment)
          = rectangular_then_elliptical).
  { rewrite !List.filter_app, Eout. filter_stages. reflexivity. }
  split.
  - eexists _, _. split; [exact Htr|]. by split.
  - rewrite Htr, List.filter_app, Epre, List.filter_app, Epost.
    rewrite (filter_spec_integrator _ false) by (by intros []). reflexivity.
Qed.

(** ** The buffer *)

Lemma length_set6 (r : list double) (o : nat) (v : R6) :
  length (set6 r o v) = length r.
Proof. unfold set6. by rewrite !length_insert. Qed.

Lemma lookup_set6_ne (r : list double) (o : nat) (v : R6) (i : nat) :
  ¬ (o ≤ i < o + 6) → set6 r o v !! i = r !! i.
Proof. intros Hi. unfold set6. by rewrite !list_lookup_insert_ne by lia. Qed.

Lemma lookup_set6 (r : list double) (o : nat) (v : R6) (k : nat) :
  k < 6 → o + k < length r → set6 r o v !! (o + k) = Some (cell v k).
Proof.
  intros Hk Hl. unfold set6.
  do 6 (destruct k as [|k];
        [ rewrite ?Nat.add_0_r in *;
          rewrite ?list_lookup_insert_ne by lia;
          rewrite list_lookup_insert_eq by (rewrite ?length_insert; lia);
          reflexivity |]).
  lia.
Qed.

Lemma lookup_set6_full (r : list double) (o : nat) (v : R6) (i : nat) :
  set6 r o v !! i
  = if decide (o ≤ i < o + 6 ∧ i < length r) then Some (cell v (i - o))
    else r !! i.
Proof.
  case_decide as Hi.
  - destruct Hi as [Ho Hl]. replace i with (o + (i - o)) at 1 by lia.
    apply lookup_set6; lia.
  - destruct (decide (o ≤ i < o + 6)) as [Ho|Ho].
    + rewrite !lookup_ge_None_2; rewrite ?length_set6; [done|lia..].
    + by apply lookup_set6_ne.
Qed.

Lemma set6_commute (r : list double) (o1 o2 : nat) (v1 v2 : R6) :
  o1 + 6 ≤ o2 ∨ o2 + 6 ≤ o1 →
  set6 (set6 r o1 v1) o2 v2 = set6 (set6 r o2 v2) o1 v1.
Proof.
  intros Ho. apply list_eq. intros i.
  rewrite !lookup_set6_full, !length_set6.
  repeat case_decide; try done; lia.
Qed.

Lemma get6_Some (r : list double) (o : nat) (v : R6) :
  get6 r o = Some v ↔ ∀ k, k < 6 → r !! (o + k) = Some (cell v k).
Proof.
  unfold get6. split.
  - intros Hg k Hk.
    destruct (r !! o) as [a0|] eqn:E0; simpl in Hg; [|done].
    destruct (r !! (o + 1)) as [a1|] eqn:E1; simpl in Hg; [|done].
    destruct (r !! (o + 2)) as [a2|] eqn:E2; simpl in Hg; [|done].
    destruct (r !! (o + 3)) as [a3|] eqn:E3; simpl in Hg; [|done].
    destruct (r !! (o + 4)) as [a4|] eqn:E4; simpl in Hg; [|done].
    destruct (r !! (o + 5)) as [a5|] eqn:E5; simpl in Hg; [|done].
    injection Hg as <-.
    do 6 (destruct k as [|k]; [rewrite ?Nat.add_0_r; done|]). lia.
  - intros Hk.
    pose proof (Hk 0) as H0. rewrite Nat.add_0_r in H0.
    rewrite H0, (Hk 1), (Hk 2), (Hk 3), (Hk 4), (Hk 5) by lia.
    by destruct v.
Qed.

Lemma get6_ext (r r' : list double) (o : nat) :
  (∀ k, k < 6 → r' !! (o + k) = r !! (o + k)) → get6 r' o = get6 r o.
Proof.
  intros Hk. unfold get6.
  pose proof (Hk 0) as H0. rewrite Nat.add_0_r in H0.
  by rewrite H0, (Hk 1), (Hk 2), (Hk 3), (Hk 4), (Hk 5) by lia.
Qed.

Lemma get6_length (r : list double) (o : nat) (v : R6) :
  get6 r o = Some v → o + 6 ≤ length r.
Proof.
  intros Hg. pose proof (proj1 (get6_Some r o v) Hg 5) as H5.
  apply lookup_lt_Some in H5; lia.
Qed.

Lemma get6_is_Some (r : list double) (o : nat) :
  o + 6 ≤ length r → is_Some (get6 r o).
Proof.
  intros Hl. unfold get6.
  destruct (lookup_lt_is_Some_2 r o) as [a0 ->]; [lia|].
  destruct (lookup_lt_is_Some_2 r (o + 1)) as [a1 ->]; [lia|].
  destruct (lookup_lt_is_Some_2 r (o + 2)) as [a2 ->]; [lia|].
  destruct (lookup_lt_is_Some_2 r (o + 3)) as [a3 ->]; [lia|].
  destruct (lookup_lt_is_Some_2 r (o + 4)) as [a4 ->]; [lia|].
  destruct (lookup_lt_is_Some_2 r (o + 5)) as [a5 ->]; [lia|].
  simpl. eauto.
Qed.

Lemma get6_set6 (r : list double) (o : nat) (v : R6) :
  o + 6 ≤ length r → get6 (set6 r o v) o = Some v.
Proof.
  intros Hl. apply get6_Some. intros k Hk. apply lookup_set6; lia.
Qed.

Lemma get6_set6_ne (r : list double) (o o' : nat) (v : R6) :
  o + 6 ≤ o' ∨ o' + 6 ≤ o → get6 (set6 r o v) o' = get6 r o'.
Proof.
  intros Ho. apply get6_ext. intros k Hk. apply lookup_set6_ne. lia.
Qed.

(** ** One iteration of the particle loop *)

Lemma particle_tracked (c : nat) (r : list double) (r6 : R6) :
  get6 r (c * 6) = Some r6 → (Z.of_nat c * 6 ≤ INT_MAX)%Z →
  particle c r
  = if atIsNaN (r_x r6) then Some (r, [])
    else match track r6 with
         | Some (_, r6', t) => Some (set6 r (c * 6) r6', pair c <$> t)
         | None => None
         end.
Proof.
  intros Hg Hc. unfold particle.
  destruct (Z.ltb_spec INT_MAX (Z.of_nat c * 6)) as [|_]; [lia|].
  pose proof (proj1 (get6_Some _ _ _) Hg 0) as H0.
  rewrite Nat.add_0_r in H0. rewrite H0, Hg by lia. reflexivity.
Qed.

Lemma particle_lost (c : nat) (r : list double) (x0 : double) :
  r !! (c * 6) = Some x0 → atIsNaN x0 = true →
  (Z.of_nat c * 6 ≤ INT_MAX)%Z → particle c r = Some (r, []).
Proof.
  intros Hx Hn Hc. unfold particle.
  destruct (Z.ltb_spec INT_MAX (Z.of_nat c * 6)) as [|_]; [lia|].
  rewrite Hx. simpl. by rewrite Hn.
Qed.

Lemma particle_shape (c : nat) (r r' : list double) (t : list (nat * call)) :
  particle c r = Some (r', t) →
  (Z.of_nat c * 6 ≤ INT_MAX)%Z
  ∧ ∃ x0, r !! (c * 6) = Some x0
    ∧ ((atIsNaN x0 = true ∧ r' = r ∧ t = [])
       ∨ (atIsNaN x0 = false
          ∧ ∃ r6 r6' tr, get6 r (c * 6) = Some r6
              ∧ track r6 = Some (tt, r6', tr)
              ∧ r' = set6 r (c * 6) r6' ∧ t = pair c <$> tr)).
Proof.
  unfold particle.
  destruct (Z.ltb_spec INT_MAX (Z.of_nat c * 6)) as [|Hc]; [done|].
  destruct (r !! (c * 6)) as [x0|]; simpl; [|done].
  intros Hp. split; [done|]. exists x0. split; [done|].
  destruct (atIsNaN x0).
  - injection Hp as <- <-. by left.
  - right. split; [done|].
    destruct (get6 r (c * 6)) as [r6|]; simpl in Hp; [|done].
    destruct (track r6) as [[[[] r6'] tr]|] eqn:Et; [|done].
    injection Hp as <- <-. by exists r6, r6', tr.
Qed.

Lemma particle_frame (c : nat) (r r' : list double) (t : list (nat * call)) :
  particle c r = Some (r', t) →
  length r' = length r
  ∧ ∀ i, ¬ (c * 6 ≤ i < c * 6 + 6) → r' !! i = r !! i.
Proof.
  intros (_ & x0 & _ & [(_ & -> & _)|(_ & r6 & r6' & tr & _ & _ & -> & _)])
    %particle_shape; [done|].
  split; [apply length_set6|]. intros i Hi. by apply lookup_set6_ne.
Qed.

Lemma particle_events (c : nat) (r r' : list double) (t : list (nat * call))
    (c' : nat) (e : call) :
  particle c r = Some (r', t) → (c', e) ∈ t →
  c' = c ∧ ∃ r6 r6' tr, get6 r (c * 6) = Some r6
    ∧ atIsNaN (r_x r6) = false ∧ track r6 = Some (tt, r6', tr) ∧ e ∈ tr.
Proof.
  intros (_ & x0 & Hx
          & [(_ & _ & ->)|(Hn & r6 & r6' & tr & Hg & Ht & _ & ->)])
    %particle_shape He.
  - by apply elem_of_nil in He.
  - apply list_elem_of_fmap in He as (e' & [= -> ->] & He').
    split; [done|]. exists r6, r6', tr.
    pose proof (proj1 (get6_Some _ _ _) Hg 0) as H0.
    rewrite Nat.add_0_r, Hx in H0. injection H0 as ->; [|lia]. done.
Qed.

(** ** The particle loop *)

Lemma loop_cons (c : nat) (cs : list nat) (r : list double) :
  loop (c :: cs) r
  = '(r1, t1) ← particle c r; '(r2, t2) ← loop cs r1; Some (r2, t1 ++ t2).
Proof. reflexivity. Qed.

Lemma loop_cons_Some (c : nat) (cs : list nat) (r r' : list double)
    (t : list (nat * call)) :
  loop (c :: cs) r = Some (r', t) ↔
  ∃ r1 t1 t2, particle c r = Some (r1, t1) ∧ loop cs r1 = Some (r', t2)
    ∧ t = t1 ++ t2.
Proof.
  rewrite loop_cons. split.
  - destruct (particle c r) as [[r1 t1]|]; simpl; [|done].
    destruct (loop cs r1) as [[r2 t2]|] eqn:E; simpl; [|done].
    intros [= <- <-]. by exists r1, t1, t2.
  - intros (r1 & t1 & t2 & -> & E & ->). simpl. rewrite E. done.
Qed.

Lemma loop_frame (cs : list nat) (r r' : list double)
    (t : list (nat * call)) :
  loop cs r = Some (r', t) →
  length r' = length r
  ∧ ∀ i, (∀ c, c ∈ cs → ¬ (c * 6 ≤ i < c * 6 + 6)) → r' !! i = r !! i.
Proof.
  revert r t. induction cs as [|c cs IH]; intros r t.
  - intros [= <- <-]. done.
  - intros (r1 & t1 & t2 & Hp & Hl & ->)%loop_cons_Some.
    apply particle_frame in Hp as [Hlen Hp]. apply IH in Hl as [Hlen' Hl].
    split; [congruence|]. intros i Hi.
    rewrite Hl, Hp; [done| |].
    + apply Hi. by left.
    + intros c' Hc'. apply Hi. by right.
Qed.

Lemma loop_events (cs : list nat) (r r' : list double)
    (t : list (nat * call)) (c : nat) (e : call) :
  loop cs r = Some (r', t) → (c, e) ∈ t →
  c ∈ cs ∧ ∃ r6 r6' tr,
    atIsNaN (r_x r6) = false ∧ track r6 = Some (tt, r6', tr) ∧ e ∈ tr.
Proof.
  revert r t. induction cs as [|c0 cs IH]; intros r t.
  - intros [= <- <-] He. by apply elem_of_nil in He.
  - intros (r1 & t1 & t2 & Hp & Hl & ->)%loop_cons_Some
      [He|He]%elem_of_app.
    + destruct (particle_events _ _ _ _ _ _ Hp He)
        as (-> & r6 & r6' & tr & _ & Hn & Ht & Hin).
      split; [by left|]. by exists r6, r6', tr.
    + destruct (IH _ _ Hl He) as [Hc Hex]. split; [by right|done].
Qed.

(** A particle that is lost when the loop starts is never touched by it. *)
Lemma loop_skips_lost (cs : list nat) (r r' : list double)
    (t : list (nat * call)) (c : nat) (x0 : double) :
  r !! (c * 6) = Some x0 → atIsNaN x0 = true →
  loop cs r = Some (r', t) →
  (∀ k, k < 6 → r' !! (c * 6 + k) = r !! (c * 6 + k)) ∧ ∀ e, (c, e) ∉ t.
Proof.
  intros Hx Hn. revert r t Hx. induction cs as [|c0 cs IH]; intros r t Hx.
  - intros [= <- <-]. split; [done|]. intros e. apply not_elem_of_nil.
  - intros (r1 & t1 & t2 & Hp & Hl & ->)%loop_cons_Some.
    destruct (decide (c0 = c)) as [->|Hne].
    + rewrite (particle_lost c r x0) in Hp; [|done|done|].
      2:{ apply particle_shape in Hp. tauto. }
      injection Hp as <- <-. by apply IH.
    + pose proof (particle_frame _ _ _ _ Hp) as [_ Hf].
      destruct (IH r1 t2) as [Hk He]; [|done|].
      { rewrite Hf; [done|lia]. }
      split.
      * intros k Hlt. rewrite Hk, Hf; [done|lia|done].
      * intros e [Hin|Hin]%elem_of_app; [|by apply (He e)].
        by destruct (particle_events _ _ _ _ _ _ Hp Hin) as [? _].
Qed.

(** The calls of a tracked particle all appear in the trace of the loop. *)
Lemma loop_tracks (cs : list nat) (r r' : list double)
    (t : list (nat * call)) (c : nat) (x0 : double) :
  c ∈ cs → r !! (c * 6) = Some x0 → atIsNaN x0 = false →
  loop cs r = Some (r', t) →
  ∃ r6 r6' tr, get6 r (c * 6) = Some r6 ∧ track r6 = Some (tt, r6', tr)
    ∧ ∀ e, e ∈ tr → (c, e) ∈ t.
Proof.
  intros Hc Hx Hn. revert r t Hx Hc.
  induction cs as [|c0 cs IH]; intros r t Hx Hc.
  - by apply elem_of_nil in Hc.
  - intros (r1 & t1 & t2 & Hp & Hl & ->)%loop_cons_Some.
    destruct (decide (c0 = c)) as [->|Hne].
    + apply particle_shape in Hp
        as (_ & x1 & Hx1
            & [(Hn1 & _)|(_ & r6 & r6' & tr & Hg & Ht & _ & ->)]).
      { congruence. }
      exists r6, r6', tr. split; [done|]. split; [done|].
      intros e He. apply elem_of_app. left. by apply list_elem_of_fmap_2.
    + apply elem_of_cons in Hc as [->|Hc]; [done|].
      pose proof (particle_frame _ _ _ _ Hp) as [_ Hf].
      destruct (IH r1 t2) as (r6 & r6' & tr & Hg & Ht & He); [|done|done|].
      { rewrite Hf; [done|lia]. }
      exists r6, r6', tr. split.
      { rewrite <- Hg. symmetry. apply get6_ext. intros k Hk.
        apply Hf. lia. }
      split; [done|]. intros e Hin. apply elem_of_app. right. by apply He.
Qed.

(** The loop returns whenever the buffer holds the particles it visits and
    the read of [B[1]], if a fringe mode asks for it, is in bounds. *)
Lemma loop_returns (cs : list nat) (r : list double) :
  (∀ c, c ∈ cs → c * 6 + 6 ≤ length r ∧ (Z.of_nat c * 6 ≤ INT_MAX)%Z) →
  (FringeQuadEntrance = 0 ∧ FringeQuadExit = 0)%Z ∨ is_Some (B !! 1) →
  is_Some (loop cs r).
Proof.
  intros Hcs Hb. revert r Hcs. induction cs as [|c cs IH]; intros r Hcs.
  - by eexists.
  - destruct (Hcs c) as [Hl Hc]; [by left|].
    destruct (get6_is_Some r (c * 6) Hl) as [r6 Hg].
    rewrite loop_cons, (particle_tracked c r r6) by done.
    assert (∀ r1, length r1 = length r →
              is_Some (loop cs r1)) as Hrest.
    { intros r1 Hlen. apply IH. intros c' Hc'. rewrite Hlen.
      apply Hcs. by right. }
    destruct (atIsNaN (r_x r6)).
    + simpl. destruct (Hrest r eq_refl) as [[r2 t2] ->]. by eexists.
    + destruct (track_returns r6 Hb) as (r6' & tr & ->).
      destruct (Hrest (set6 r (c * 6) r6')) as [[r2 t2] E];
        [apply length_set6|].
      simpl. rewrite E. by eexists.
Qed.

(** ** Iterations on different particles commute *)

Lemma particle_cells_shape (c : nat) (r : list double) :
  fst <$> particle c r = None
  ∨ fst <$> particle c r = Some r
  ∨ ∃ w, fst <$> particle c r = Some (set6 r (c * 6) w).
Proof.
  destruct (particle c r) as [[r' t]|] eqn:Hp; [|by left]. right.
  apply particle_shape in Hp
    as (_ & x0 & _ & [(_ & -> & _)|(_ & r6 & r6' & tr & _ & _ & -> & _)]).
  - by left.
  - right. by exists r6'.
Qed.

(** An iteration on particle [c2] does not see a write to particle [c1]. *)
Lemma particle_set6_other (c1 c2 : nat) (r : list double) (w : R6) :
  c1 ≠ c2 →
  fst <$> particle c2 (set6 r (c1 * 6) w)
  = (λ r', set6 r' (c1 * 6) w) <$> (fst <$> particle c2 r).
Proof.
  intros Hne. unfold particle.
  destruct (INT_MAX <? Z.of_nat c2 * 6)%Z; [done|].
  rewrite lookup_set6_ne, get6_set6_ne by lia.
  destruct (r !! (c2 * 6)) as [x0|]; simpl; [|done].
  destruct (atIsNaN x0); simpl; [done|].
  destruct (get6 r (c2 * 6)) as [r6|]; simpl; [|done].
  destruct (track r6) as [[[[] r6'] tr]|]; simpl; [|done].
  f_equal. apply set6_commute. lia.
Qed.

Lemma particle_comm (c1 c2 : nat) (r : list double) :
  (fst <$> particle c1 r) ≫= (λ r1, fst <$> particle c2 r1)
  = (fst <$> particle c2 r) ≫= (λ r2, fst <$> particle c1 r2).
Proof.
  destruct (decide (c1 = c2)) as [->|Hne]; [done|].
  destruct (particle_cells_shape c1 r) as [E1|[E1|[w1 E1]]],
           (particle_cells_shape c2 r) as [E2|[E2|[w2 E2]]];
    rewrite E1, E2; simpl;
    rewrite ?particle_set6_other, ?E1, ?E2 by done; simpl; try done.
  f_equal. apply set6_commute. lia.
Qed.

Lemma loop_cells_cons (c : nat) (cs : list nat) (r : list double) :
  fst <$> loop (c :: cs) r
  = (fst <$> particle c r) ≫= (λ r1, fst <$> loop cs r1).
Proof.
  rewrite loop_cons. destruct (particle c r) as [[r1 t1]|]; simpl; [|done].
  by destruct (loop cs r1) as [[r2 t2]|].
Qed.

Lemma loop_Permutation (cs1 cs2 : list nat) :
  Permutation cs1 cs2 → ∀ r, fst <$> loop cs1 r = fst <$> loop cs2 r.
Proof.
  induction 1 as [|c cs1 cs2 _ IH|c1 c2 cs|cs1 cs2 cs3 _ IH1 _ IH2];
    intros r.
  - done.
  - rewrite !loop_cells_cons.
    destruct (fst <$> particle c r) as [r1|]; simpl; [apply IH|done].
  - rewrite !loop_cells_cons.
    transitivity (((fst <$> particle c2 r)
                     ≫= (λ r1, fst <$> particle c1 r1))
                    ≫= (λ r2, fst <$> loop cs r2)).
    + destruct (fst <$> particle c2 r) as [r1|]; [|done].
      exact (loop_cells_cons c1 cs r1).
    + rewrite particle_comm.
      destruct (fst <$> particle c1 r) as [r1|]; [|done].
      symmetry. exact (loop_cells_cons c2 cs r1).
  - by rewrite IH1.
Qed.

(** Each visited particle ends in the image of its own initial cells. *)
Lemma loop_particle_map (cs : list nat) (r r' : list double)
    (t : list (nat * call)) (c : nat) :
  NoDup cs → c ∈ cs → loop cs r = Some (r', t) →
  get6 r' (c * 6) = get6 r (c * 6) ≫= particle_map.
Proof.
  intros Hnd Hc. revert r t Hnd Hc.
  induction cs as [|c0 cs IH]; intros r t Hnd Hc.
  - by apply elem_of_nil in Hc.
  - apply NoDup_cons in Hnd as [Hc0 Hnd].
    intros (r1 & t1 & t2 & Hp & Hl & ->)%loop_cons_Some.
    destruct (decide (c = c0)) as [->|Hne].
    + transitivity (get6 r1 (c0 * 6)).
      { apply get6_ext. intros k Hk.
        apply (loop_frame _ _ _ _ Hl). intros c' Hc'.
        assert (c' ≠ c0) by (by intros ->). lia. }
      apply particle_shape in Hp
        as (_ & x0 & Hx
            & [(Hn & -> & _)|(Hn & r6 & r6' & tr & Hg & Ht & -> & _)]).
      * destruct (get6 r (c0 * 6)) as [r6|] eqn:Hg; simpl; [|done].
        pose proof (proj1 (get6_Some _ _ _) Hg 0) as H0.
        rewrite Nat.add_0_r, Hx in H0. injection H0 as ->; [|lia].
        unfold particle_map. by rewrite Hn.
      * pose proof (proj1 (get6_Some _ _ _) Hg 0) as H0.
        rewrite Nat.add_0_r, Hx in H0. injection H0 as ->; [|lia].
        rewrite get6_set6 by (by eapply get6_length).
        rewrite Hg. simpl. unfold particle_map. by rewrite Hn, Ht.
    + apply elem_of_cons in Hc as [->|Hc]; [done|].
      rewrite (IH r1 t2) by done. f_equal.
      apply get6_ext. intros k Hk.
      apply (particle_frame _ _ _ _ Hp). lia.
Qed.

(** ** Which calls a stage can contain *)

Lemma opt_call_Forall (P : call → Prop) (p : option (list double))
    (g : list double → call) :
  (∀ a, P (g a)) → Forall P (opt_call p g).
Proof. intros Hg. destruct p; repeat constructor. apply Hg. Qed.

Lemma fringe_call_Forall (P : call → Prop) (mode : Z) (useLinFrEle : bool)
    (linear : double → option (list double) → option (list double) → call)
    (hard : double → call) (b1 : double) :
  (∀ b m p, P (linear b m p)) → (∀ b, P (hard b)) →
  Forall P (fringe_call mode useLinFrEle linear hard b1).
Proof.
  intros Hl Hh. unfold fringe_call.
  destruct (mode =? 0)%Z, (nonzero b1), useLinFrEle; repeat constructor;
    auto.
Qed.

Lemma entrance_Forall (P : call → Prop) (f_in : list call) :
  (∀ c, is_drift_kick c = false → P c) →
  fringe_calls FringeQuadEntrance entrance_fringe = Some f_in →
  Forall P (entrance_misalignment ++ rectangular_then_elliptical ++ f_in).
Proof.
  intros HP Hin. repeat apply Forall_app_2.
  - apply opt_call_Forall. intros; by apply HP.
  - apply opt_call_Forall. intros; by apply HP.
  - apply opt_call_Forall. intros; by apply HP.
  - apply opt_call_Forall. intros; by apply HP.
  - eapply fringe_calls_Forall; [exact Hin|]. intros b1.
    apply fringe_call_Forall; intros; by apply HP.
Qed.

Lemma exit_Forall (P : call → Prop) (f_out : list call) :
  (∀ c, is_drift_kick c = false → P c) →
  fringe_calls FringeQuadExit exit_fringe = Some f_out →
  Forall P (f_out ++ rectangular_then_elliptical ++ exit_misalignment).
Proof.
  intros HP Hout. repeat apply Forall_app_2.
  - eapply fringe_calls_Forall; [exact Hout|]. intros b1.
    apply fringe_call_Forall; intros; by apply HP.
  - apply opt_call_Forall. intros; by apply HP.
  - apply opt_call_Forall. intros; by apply HP.
  - apply opt_call_Forall. intros; by apply HP.
  - apply opt_call_Forall. intros; by apply HP.
Qed.

Lemma spec_integrator_derived (n : nat) (r6 : R6) :
  Forall (derived_from SL) (spec_integrator n r6).
Proof.
  revert r6. induction n as [|n IH]; intros r6; [constructor|].
  rewrite spec_integrator_S. apply Forall_app_2; [|apply IH].
  unfold spec_slice, L1, L2, K1, K2.
  repeat first [apply Forall_nil_2 | apply Forall_cons_2]; simpl;
    try eexists; first [by left | by right].
Qed.

Lemma track_derived (r6 r6' : R6) (tr : list call) :
  track r6 = Some (tt, r6', tr) → Forall (derived_from SL) tr.
Proof.
  intros (f_in & f_out & Hin & Hout & -> & _)%track_Some.
  apply Forall_app_2; [|apply Forall_app_2].
  - apply entrance_Forall; [|done]. by intros [].
  - apply spec_integrator_derived.
  - apply exit_Forall; [|done]. by intros [].
Qed.

Lemma track_fringe (r6 r6' : R6) (tr : list call) (b1 : double) :
  track r6 = Some (tt, r6', tr) → B !! 1 = Some b1 →
  List.filter is_fringe tr = entrance_fringe b1 ++ exit_fringe b1.
Proof.
  intros (f_in & f_out & Hin & Hout & -> & _)%track_Some Hb.
  assert (f_in = entrance_fringe b1) as ->.
  { apply fringe_calls_cases in Hin as [[E ->]|[_ (b & Hb' & ->)]].
    - unfold entrance_fringe, fringe_call. by rewrite E.
    - congruence. }
  assert (f_out = exit_fringe b1) as ->.
  { apply fringe_calls_cases in Hout as [[E ->]|[_ (b & Hb' & ->)]].
    - unfold exit_fringe, fringe_call. by rewrite E.
    - congruence. }
  filter_stages. reflexivity.
Qed.

Lemma hard_edge_without_integrals (b1 : double) :
  fringeIntM0 = None ∨ fringeIntP0 = None →
  entrance_fringe b1
  = (if (FringeQuadEntrance =? 0)%Z then []
     else if nonzero b1 then [Call_QuadFringePassP b1] else [])
  ∧ exit_fringe b1
    = (if (FringeQuadExit =? 0)%Z then []
       else if nonzero b1 then [Call_QuadFringePassN b1] else []).
Proof.
  intros Hm. unfold entrance_fringe, exit_fringe, fringe_call.
  assert (useLinFrEleEntrance = false) as ->.
  { unfold useLinFrEleEntrance.
    destruct Hm as [-> | ->]; [done|]. by destruct fringeIntM0. }
  assert (useLinFrEleExit = false) as ->.
  { unfold useLinFrEleExit.
    destruct Hm as [-> | ->]; [done|]. by destruct fringeIntM0. }
  done.
Qed.

(** ** After the entrance checks *)

(** C2 (amended): the loop body makes no loss test after the entrance
    aperture checks.  Whatever state those checks leave, marked lost or not,
    every later stage is applied to it, in this order: the entrance fringe,
    the [NumIntSteps] slices ([7 * NumIntSteps] drifts and kicks), the exit
    fringe, the exit aperture checks (rectangular, elliptical) and the exit
    misalignment ([R2], [T2]).  These calls are all the calls made after
    the entrance checks; which fringe calls there are depends on the modes
    and on [B[1]], not on the particle.  The final coordinates are the
    result of running them on the state the entrance checks left, and they
    are what the iteration of the particle loop writes to the buffer. *)
Theorem stages_after_entrance_checks_always_run
    (r6 r6' : R6) (tr : list call) :
  track r6 = Some (tt, r6', tr) →
  ∃ f_in f_out,
    fringe_calls FringeQuadEntrance entrance_fringe = Some f_in
    ∧ fringe_calls FringeQuadExit exit_fringe = Some f_out
    ∧ let checks := entrance_misalignment ++ rectangular_then_elliptical in
      let marked := run checks r6 in
      let later :=
        f_in
        ++ spec_integrator (Z.to_nat num_int_steps) (run f_in marked)
        ++ f_out
        ++ (opt_call RApertures Call_checkiflostRectangularAp
            ++ opt_call EApertures Call_checkiflostEllipticalAp)
        ++ (opt_call R2 Call_ATmultmv ++ opt_call T2 Call_ATaddvv) in
      tr = checks ++ later
      ∧ r6' = run later marked
      ∧ length (List.filter is_drift_kick later)
        = 7 * Z.to_nat num_int_steps
      ∧ ∀ c r,
          get6 r (c * 6) = Some r6 → atIsNaN (r_x r6) = false →
          (Z.of_nat c * 6 ≤ INT_MAX)%Z →
          particle c r
          = Some (set6 r (c * 6) (run later marked),
                  pair c <$> (checks ++ later)).
Proof.
  intros Ht.
  pose proof Ht as (f_in & f_out & Hin & Hout & Htr & Hr)%track_Some.
  simpl in Htr.
  exists f_in, f_out. split; [exact Hin|]. split; [exact Hout|].
  cbv zeta.
  change (opt_call RApertures Call_checkiflostRectangularAp
          ++ opt_call EApertures Call_checkiflostEllipticalAp)
    with rectangular_then_elliptical.
  change (opt_call R2 Call_ATmultmv ++ opt_call T2 Call_ATaddvv)
    with exit_misalignment.
  assert (tr = (entrance_misalignment ++ rectangular_then_elliptical)
               ++ f_in
               ++ spec_integrator (Z.to_nat num_int_steps)
                    (run f_in (run (entrance_misalignment
                                    ++ rectangular_then_elliptical) r6))
               ++ f_out ++ rectangular_then_elliptical ++ exit_misalignment)
    as Htr'.
  { rewrite Htr, <- !run_app, <- !app_assoc. reflexivity. }
  assert (r6' = run (f_in
               ++ spec_integrator (Z.to_nat num_int_steps)
                    (run f_in (run (entrance_misalignment
                                    ++ rectangular_then_elliptical) r6))
               ++ f_out ++ rectangular_then_elliptical ++ exit_misalignment)
              (run (entrance_misalignment ++ rectangular_then_elliptical) r6))
    as Hr'.
  { rewrite Hr, Htr' at 1. by rewrite run_app. }
  split; [exact Htr'|]. split; [exact Hr'|]. split.
  - rewrite !List.filter_app.
    rewrite (filter_entrance_fringe_calls is_drift_kick false f_in)
      by (intros; first [reflexivity | assumption]).
    rewrite (filter_exit_fringe_calls is_drift_kick false f_out)
      by (intros; first [reflexivity | assumption]).
    filter_stages. apply length_spec_integrator.
  - intros c r Hg Hn Hc.
    rewrite (particle_tracked c r r6), Hn, Ht by done.
    by rewrite <- Hr', <- Htr'.
Qed.

(** ** The integrator *)

(** C4: for a particle that is not lost, the iteration returns, and the
    drifts and kicks it makes are exactly the slice of the spec -- drift(L1
    norm), kick(K1), drift(L2 norm), kick(K2), drift(L2 norm), kick(K1),
    drift(L1 norm), with norm = 1/(1+delta) taken from the state at the start
    of the slice -- repeated [NumIntSteps] times, starting from the state
    left by the entrance stages; no other stage drifts or kicks. *)
Theorem every_slice_is_the_spec_slice (c : nat) (r : list double) (r6 : R6) :
  get6 r (c * 6) = Some r6 → atIsNaN (r_x r6) = false →
  (Z.of_nat c * 6 ≤ INT_MAX)%Z →
  (FringeQuadEntrance = 0 ∧ FringeQuadExit = 0)%Z ∨ is_Some (B !! 1) →
  ∃ pre post,
    let integrator :=
      spec_integrator (Z.to_nat num_int_steps) (run pre r6) in
    particle c r
    = Some (set6 r (c * 6) (run (pre ++ integrator ++ post) r6),
            pair c <$> (pre ++ integrator ++ post))
    ∧ Forall (λ e, is_drift_kick e = false) pre
    ∧ Forall (λ e, is_drift_kick e = false) post
    ∧ length integrator = 7 * Z.to_nat num_int_steps.
Proof.
  intros Hg Hn Hc Hb.
  rewrite (particle_tracked c r r6), Hn by done.
  destruct (track_returns r6 Hb) as (r6' & tr & Ht). rewrite Ht.
  apply track_Some in Ht as (f_in & f_out & Hin & Hout & -> & ->).
  eexists _, _. split; [reflexivity|]. split; [|split].
  - by apply entrance_Forall.
  - by apply exit_Forall.
  - apply length_spec_integrator.
Qed.

(** ** The step coefficients *)

Lemma spec_slice_derived (r6 : R6) :
  spec_slice r6 = derived_slice (r_delta r6).
Proof. reflexivity. Qed.

Lemma spec_integrator_slices (n : nat) (r6 : R6) :
  ∃ deltas, length deltas = n
    ∧ spec_integrator n r6 = concat (derived_slice <$> deltas).
Proof.
  revert r6. induction n as [|n IH]; intros r6; [by exists []|].
  destruct (IH (run (spec_slice r6) r6)) as (deltas & Hl & E).
  exists (r_delta r6 :: deltas). split; [simpl; lia|].
  rewrite spec_integrator_S, E, spec_slice_derived. reflexivity.
Qed.

Lemma track_slices (r6 r6' : R6) (tr : list call) :
  track r6 = Some (tt, r6', tr) →
  ∃ deltas, length deltas = Z.to_nat num_int_steps
    ∧ List.filter is_drift_kick tr = concat (derived_slice <$> deltas).
Proof.
  intros (f_in & f_out & Hin & Hout & -> & _)%track_Some.
  destruct (spec_integrator_slices (Z.to_nat num_int_steps)
              (run (entrance_misalignment ++ rectangular_then_elliptical
                    ++ f_in) r6)) as (deltas & Hl & E).
  exists deltas. split; [done|]. rewrite <- E, !List.filter_app.
  rewrite (filter_entrance_fringe_calls is_drift_kick false f_in)
    by (intros; first [reflexivity | assumption]).
  rewrite (filter_exit_fringe_calls is_drift_kick false f_out)
    by (intros; first [reflexivity | assumption]).
  filter_stages. reflexivity.
Qed.

Lemma filter_drift_kick_pair (c : nat) (tr : list call) :
  List.filter (λ ce : nat * call, is_drift_kick ce.2) (pair c <$> tr)
  = pair c <$> List.filter is_drift_kick tr.
Proof.
  induction tr as [|e tr IH]; [done|]. cbn [fmap list_fmap List.filter snd].
  destruct (is_drift_kick e); cbn [fmap list_fmap]; by rewrite IH.
Qed.

Lemma derived_slices_pair (c : nat) (deltas : list double) :
  pair c <$> concat (derived_slice <$> deltas)
  = derived_slices (pair c <$> deltas).
Proof.
  unfold derived_slices. induction deltas as [|d deltas IH]; [done|].
  cbn [fmap list_fmap concat fst snd]. rewrite fmap_app. by f_equal.
Qed.

Lemma loop_slices (cs : list nat) (r r' : list double)
    (t : list (nat * call)) :
  loop cs r = Some (r', t) →
  ∃ s, List.filter (λ ce : nat * call, is_drift_kick ce.2) t
       = derived_slices s.
Proof.
  revert r t. induction cs as [|c cs IH]; intros r t.
  - intros [= <- <-]. by exists [].
  - intros (r1 & t1 & t2 & Hp & Hl & ->)%loop_cons_Some.
    destruct (IH _ _ Hl) as (s2 & E2). rewrite List.filter_app, E2.
    apply particle_shape in Hp
      as (_ & x0 & _
          & [(_ & _ & ->)|(_ & r6 & r6' & tr & _ & Ht & _ & ->)]).
    + by exists s2.
    + destruct (track_slices _ _ _ Ht) as (deltas & _ & E).
      exists ((pair c <$> deltas) ++ s2).
      rewrite filter_drift_kick_pair, E, derived_slices_pair.
      unfold derived_slices. by rewrite fmap_app, concat_app.
Qed.

(** C5: the four decimal constants are the binary64 numbers nearest to the
    literals of the source.  The step coefficients are SL =
    Length/NumIntSteps, L1 = SL*DRIFT1, L2 = SL*DRIFT2, K1 = SL*KICK1 and
    K2 = SL*KICK2, and a slice uses each of them at its place: it is drift
    (SL*DRIFT1*norm), kick (SL*KICK1), drift (SL*DRIFT2*norm), kick
    (SL*KICK2), drift (SL*DRIFT2*norm), kick (SL*KICK1), drift
    (SL*DRIFT1*norm).  In a whole call the drifts and kicks, taken in the
    order they are made, are such slices for every particle and every
    slice, all with the one SL obtained from the arguments of the call;
    hence every drift and every kick carries one of the four
    coefficients. *)
Theorem step_coefficients :
  rounds_decimal DRIFT1 false 6756035959798286638 19 = true
  ∧ rounds_decimal DRIFT2 true 1756035959798286639 19 = true
  ∧ rounds_decimal KICK1 false 1351207191959657328 18 = true
  ∧ rounds_decimal KICK2 true 1702414383919314656 18 = true
  ∧ (SL = (le / double_of_int num_int_steps)%float
     ∧ L1 = (SL * DRIFT1)%float ∧ L2 = (SL * DRIFT2)%float
     ∧ K1 = (SL * KICK1)%float ∧ K2 = (SL * KICK2)%float)
  ∧ (∀ r6 : R6,
       slice r6
       = Some (tt, run (derived_slice (r_delta r6)) r6,
               derived_slice (r_delta r6)))
  ∧ ∀ r num_particles r' t,
      StrMPoleSymplectic4Pass r num_particles = Some (r', t) →
      (∃ s, List.filter (λ ce : nat * call, is_drift_kick ce.2) t
            = derived_slices s)
      ∧ ∀ c e, (c, e) ∈ t →
          derived_from (le / double_of_int num_int_steps)%float e.
Proof.
  do 4 (split; [by vm_compute|]).
  split; [by repeat split|]. split; [intros r6; reflexivity|].
  intros r num_particles r' t Hp. split; [by eapply loop_slices|].
  intros c e He.
  destruct (loop_events _ _ _ _ _ _ Hp He)
    as (_ & r6 & r6' & tr & _ & Ht & Hin).
  pose proof (track_derived _ _ _ Ht) as Hd.
  rewrite Forall_forall in Hd. by apply Hd.
Qed.

(** ** Lost particles *)

(** C6: a particle whose sentinel cell [r6[0]] is not-a-number when the pass
    starts is left as it is: its own iteration returns the buffer unchanged
    and calls nothing, and after the whole pass its six cells are the ones
    it had and no call was made on it.  The pass does return whenever the
    buffer holds the particles and [B[1]] exists or no fringe is asked. *)
Theorem already_lost_particle_untouched (r : list double)
    (num_particles : Z) (c : nat) (x0 : double) :
  r !! (c * 6) = Some x0 → atIsNaN x0 = true →
  ((Z.of_nat c * 6 ≤ INT_MAX)%Z → particle c r = Some (r, []))
  ∧ (∀ r' t, StrMPoleSymplectic4Pass r num_particles = Some (r', t) →
       (∀ k, k < 6 → r' !! (c * 6 + k) = r !! (c * 6 + k))
       ∧ ∀ e, (c, e) ∉ t)
  ∧ (Z.to_nat num_particles * 6 ≤ length r →
     (num_particles * 6 ≤ INT_MAX)%Z →
     (FringeQuadEntrance = 0 ∧ FringeQuadExit = 0)%Z ∨ is_Some (B !! 1) →
     is_Some (StrMPoleSymplectic4Pass r num_particles)).
Proof.
  intros Hx Hn. split; [|split].
  - intros Hc. by eapply particle_lost.
  - intros r' t Hp. by eapply loop_skips_lost.
  - intros Hl Hi Hb. apply loop_returns; [|done].
    intros c' Hc'%elem_of_seq. lia.
Qed.

(** C9: the sentinel test looks at [r6[0]] only.  A particle whose x is not
    not-a-number goes through every stage of the pipeline, whatever its
    other five cells hold. *)
Theorem sentinel_test_reads_x_only (c : nat) (r : list double) (r6 : R6) :
  get6 r (c * 6) = Some r6 → atIsNaN (r_x r6) = false →
  (Z.of_nat c * 6 ≤ INT_MAX)%Z →
  particle c r
  = cs ← pipeline_calls r6;
    Some (set6 r (c * 6) (run cs r6), pair c <$> cs).
Proof.
  intros Hg Hn Hc. rewrite (particle_tracked c r r6), Hn, track_calls by done.
  by destruct (pipeline_calls r6).
Qed.

(** ** Fringe fields *)

(** C10: with a nonzero fringe mode on either side, the iteration of a
    particle that is not lost reads [B[1]], whatever [max_order] and [A]
    are: when [B] has fewer than two entries that read is out of bounds.
    With both modes zero the iteration returns whatever [B] is.  When
    [B[1]] exists, the fringe calls are decided by the modes, the two
    integral vectors and [B[1]] alone, and there is none when [B[1]] is
    zero. *)
Theorem fringe_reads_PolynomB_1 (c : nat) (r : list double) (r6 : R6) :
  get6 r (c * 6) = Some r6 → atIsNaN (r_x r6) = false →
  (Z.of_nat c * 6 ≤ INT_MAX)%Z →
  ((FringeQuadEntrance ≠ 0 ∨ FringeQuadExit ≠ 0)%Z → length B < 2 →
   particle c r = None)
  ∧ ((FringeQuadEntrance = 0 ∧ FringeQuadExit = 0)%Z →
     is_Some (particle c r))
  ∧ (∀ b1, B !! 1 = Some b1 →
       ∃ r' t, particle c r = Some (r', t)
         ∧ List.filter is_fringe (snd <$> t)
           = entrance_fringe b1 ++ exit_fringe b1
         ∧ (nonzero b1 = false → List.filter is_fringe (snd <$> t) = [])).
Proof.
  intros Hg Hn Hc. rewrite (particle_tracked c r r6), Hn by done.
  split; [|split].
  - intros Hm Hl. rewrite track_calls.
    unfold pipeline_calls, fringe_calls.
    rewrite (lookup_ge_None_2 B 1) by lia.
    destruct (Z.eqb_spec FringeQuadEntrance 0), (Z.eqb_spec FringeQuadExit 0);
      simpl; try done. lia.
  - intros Hm. destruct (track_returns r6) as (r6' & tr & ->); [by left|].
    by eexists.
  - intros b1 Hb.
    destruct (track_returns r6) as (r6' & tr & Ht); [right; by eexists|].
    rewrite Ht. eexists _, _. split; [reflexivity|].
    rewrite <- list_fmap_compose, list_fmap_id.
    rewrite (track_fringe _ _ _ _ Ht Hb). split; [done|].
    intros Hz. unfold entrance_fringe, exit_fringe, fringe_call.
    rewrite Hz. by destruct (_ =? 0)%Z, (_ =? 0)%Z.
Qed.

(** C1 (amended): when at least one of the two integral vectors is absent the
    pass raises nothing, whatever the fringe modes (2 included): it returns,
    every fringe call it makes is a hard-edge call ([QuadFringePassP] at the
    entrance, [QuadFringePassN] at the exit), and it makes that call for
    every tracked particle on each side whose mode is nonzero when [B[1]]
    is nonzero. *)
Theorem missing_integrals_fall_back_to_hard_edge (r : list double)
    (num_particles : Z) (b1 : double) :
  fringeIntM0 = None ∨ fringeIntP0 = None →
  B !! 1 = Some b1 →
  Z.to_nat num_particles * 6 ≤ length r →
  (num_particles * 6 ≤ INT_MAX)%Z →
  ∃ r' t,
    StrMPoleSymplectic4Pass r num_particles = Some (r', t)
    ∧ (∀ c e, (c, e) ∈ t → is_fringe e = true →
         e = Call_QuadFringePassP b1 ∨ e = Call_QuadFringePassN b1)
    ∧ (∀ c x0, c < Z.to_nat num_particles →
         r !! (c * 6) = Some x0 → atIsNaN x0 = false →
         nonzero b1 = true →
         (FringeQuadEntrance ≠ 0%Z → (c, Call_QuadFringePassP b1) ∈ t)
         ∧ (FringeQuadExit ≠ 0%Z → (c, Call_QuadFringePassN b1) ∈ t)).
Proof.
  intros Hm Hb Hl Hi.
  destruct (loop_returns (seq 0 (Z.to_nat num_particles)) r)
    as [[r' t] Hp].
  { intros c' Hc'%elem_of_seq. lia. }
  { right. by eexists. }
  destruct (hard_edge_without_integrals b1 Hm) as [Ein Eout].
  exists r', t. split; [exact Hp|]. split.
  - intros c e He Hf.
    destruct (loop_events _ _ _ _ _ _ Hp He)
      as (_ & r6 & r6' & tr & _ & Ht & Hin).
    assert (e ∈ List.filter is_fringe tr) as Hin'.
    { apply list_elem_of_In, List.filter_In.
      split; [by apply list_elem_of_In|done]. }
    rewrite (track_fringe _ _ _ _ Ht Hb), Ein, Eout in Hin'.
    apply elem_of_app in Hin' as [Hin'|Hin'].
    + destruct (_ =? 0)%Z, (nonzero b1);
        try (by apply elem_of_nil in Hin').
      apply list_elem_of_singleton in Hin'. by left.
    + destruct (FringeQuadExit =? 0)%Z, (nonzero b1);
        try (by apply elem_of_nil in Hin').
      apply list_elem_of_singleton in Hin'. by right.
  - intros c x0 Hc Hx Hn Hz.
    assert (c ∈ seq 0 (Z.to_nat num_particles)) as Hin
      by (apply elem_of_seq; lia).
    destruct (loop_tracks _ _ _ _ c x0 Hin Hx Hn Hp)
      as (r6 & r6' & tr & _ & Ht & Hsub).
    pose proof (track_fringe _ _ _ _ Ht Hb) as Hf.
    rewrite Ein, Eout, Hz in Hf.
    assert (∀ e, e ∈ List.filter is_fringe tr → (c, e) ∈ t) as Hsub'.
    { intros e [He _]%list_elem_of_In%List.filter_In.
      by apply Hsub, list_elem_of_In. }
    split; intros Hmode; apply Hsub'; rewrite Hf.
    + destruct (Z.eqb_spec FringeQuadEntrance 0); [done|].
      apply elem_of_app. left. by apply list_elem_of_singleton.
    + destruct (Z.eqb_spec FringeQuadExit 0); [done|].
      apply elem_of_app. right. by apply list_elem_of_singleton.
Qed.

(** ** Batches *)

(** C8: running the particle loop over the indices of the batch in any order
    yields the same buffer as the pass; every particle of the result is
    [particle_map], a function of the element parameters, applied to that
    particle's own initial cells; the buffer keeps its length and the cells
    beyond the batch.  The parameter arrays are values that no definition
    of the pass returns or updates. *)
Theorem batch_independence (r : list double) (num_particles : Z)
    (order : list nat) :
  Permutation order (seq 0 (Z.to_nat num_particles)) →
  fst <$> loop order r = fst <$> StrMPoleSymplectic4Pass r num_particles
  ∧ ∀ r' t, StrMPoleSymplectic4Pass r num_particles = Some (r', t) →
      length r' = length r
      ∧ (∀ c, c < Z.to_nat num_particles →
           get6 r' (c * 6) = get6 r (c * 6) ≫= particle_map)
      ∧ (∀ i, Z.to_nat num_particles * 6 ≤ i → r' !! i = r !! i).
Proof.
  intros Hperm. split; [by apply loop_Permutation|].
  intros r' t Hp. pose proof (loop_frame _ _ _ _ Hp) as [Hlen Hf].
  split; [done|]. split.
  - intros c Hc. eapply loop_particle_map; [apply NoDup_seq| |exact Hp].
    apply elem_of_seq. lia.
  - intros i Hi. apply Hf. intros c Hc%elem_of_seq. lia.
Qed.

End Facts.

(** * The constants *)

Lemma Prim2SF_neq (a b : double) : Prim2SF a ≠ Prim2SF b → a ≠ b.
Proof. intros Hn ->. by apply Hn. Qed.

(** C7 (amended): in binary64 arithmetic on the constants of the program,
    2*DRIFT1 + 2*DRIFT2 is exactly 1 and 2*KICK1 + KICK2 is exactly 1: a
    slice has four drifts (two of each length) and three kicks (two of
    strength KICK1, one of strength KICK2). *)
Theorem coefficient_identities :
  (2 * DRIFT1 + 2 * DRIFT2)%float = 1%float
  ∧ (2 * KICK1 + KICK2)%float = 1%float.
Proof. split; reflexivity. Qed.

(** C7 as stated fails: 2*KICK1 + 2*KICK2 is negative, not 1. *)
Lemma twice_the_kicks_is_not_one :
  (2 * KICK1 + 2 * KICK2 <? 0)%float = true
  ∧ (2 * KICK1 + 2 * KICK2)%float ≠ 1%float.
Proof. split; [reflexivity|]. apply Prim2SF_neq. by vm_compute. Qed.

(** * The pass on concrete elements *)

Section Concrete.
Import Examples.

Ltac at_elem thm E :=
  constr:(thm Reference.primitives (Length E) (PolynomA E) (PolynomB E)
            (MaxOrder E) (NumIntSteps E) (FringeQuadEntrance E)
            (FringeQuadExit E) (fringeIntM0 E) (fringeIntP0 E)
            (T1 E) (T2 E) (R1 E) (R2 E) (RApertures E) (EApertures E)).

(** C1 as stated fails: with mode 2 on both sides and no integral vector,
    the pass returns, has tracked the particle, and did exactly what it does
    in mode 1: the hard-edge fringe at the entrance and at the exit. *)
Lemma mode_2_without_integrals_runs_as_mode_1 :
  FringeQuadEntrance (quadrupole 2 2) = 2%Z
  ∧ fringeIntM0 (quadrupole 2 2) = None
  ∧ fringeIntP0 (quadrupole 2 2) = None
  ∧ pass_elem (quadrupole 2 2) (cells off_axis) 1
    = pass_elem (quadrupole 1 1) (cells off_axis) 1
  ∧ ∃ r' t,
      pass_elem (quadrupole 2 2) (cells off_axis) 1 = Some (r', t)
      ∧ head t = Some (0, Call_QuadFringePassP 1)
      ∧ last t = Some (0, Call_QuadFringePassN 1)
      ∧ r' ≠ cells off_axis.
Proof.
  do 4 (split; [by vm_compute|]).
  eexists _, _. split; [by vm_compute|].
  do 2 (split; [reflexivity|]).
  by intros [=].
Qed.

(** Witness of C1 (amended), on the same call. *)
Lemma missing_integrals_fall_back_to_hard_edge_witness :
  ∃ r' t,
    pass_elem (quadrupole 2 2) (cells off_axis) 1 = Some (r', t)
    ∧ (∀ c e, (c, e) ∈ t → is_fringe e = true →
         e = Call_QuadFringePassP 1 ∨ e = Call_QuadFringePassN 1)
    ∧ (0, Call_QuadFringePassP 1) ∈ t
    ∧ (0, Call_QuadFringePassN 1) ∈ t.
Proof.
  pose (E := quadrupole 2 2).
  destruct
    (ltac:(let p := at_elem (@missing_integrals_fall_back_to_hard_edge) E in
           exact p) (cells off_axis) 1%Z 1%float)
    as (r' & t & Hp & Hf & Hc).
  - by left.
  - reflexivity.
  - simpl. lia.
  - by vm_compute.
  - exists r', t. split; [exact Hp|]. split; [exact Hf|].
    destruct (Hc 0 0.5%float) as [Hin Hout]; [simpl; lia|done..|].
    split; [by apply Hin|by apply Hout].
Defined.

(** C2 as stated fails: the particle at x = 2 is marked lost by the entrance
    check against [-1, 1, -1, 1]; the drifts then move its y from 0 to 1 and
    the exit translation moves its px from 0 to 1. *)
Lemma lost_at_the_entrance_is_still_transformed :
  let marked :=
    Reference.checkiflostRectangularAp outside [-1; 1; -1; 1]%float in
  atIsNaN (r_x marked) = true
  ∧ r_px marked = 0%float ∧ r_y marked = 0%float
  ∧ ∃ r6' later,
      track_elem collimator outside
      = Some (tt, r6',
              Call_checkiflostRectangularAp [-1; 1; -1; 1]%float :: later)
      ∧ r_px r6' = 1%float ∧ r_y r6' = 1%float
      ∧ r6' ≠ marked
      ∧ pass_elem collimator (cells outside) 1
        = Some (cells r6',
                pair 0 <$> Call_checkiflostRectangularAp
                             [-1; 1; -1; 1]%float :: later).
Proof.
  do 3 (split; [reflexivity|]).
  eexists _, _. split; [by vm_compute|].
  do 2 (split; [reflexivity|]).
  split; [|by vm_compute]. by intros [=].
Qed.

(** Witness of C2 (amended), on the same particle: after the entrance
    check that marks it lost come the slice, the exit check and the exit
    translation, and their result is written to the buffer. *)
Lemma stages_after_entrance_checks_always_run_witness :
  let rect := Call_checkiflostRectangularAp [-1; 1; -1; 1]%float in
  let marked :=
    Reference.checkiflostRectangularAp outside [-1; 1; -1; 1]%float in
  let later :=
    spec_integrator (H := Reference.primitives) 1 [0]%float [0]%float 0 1
      1 marked
    ++ [rect; Call_ATaddvv [0; 1; 0; 0; 0; 0]%float] in
  atIsNaN (r_x marked) = true
  ∧ trace_of (track_elem collimator outside) = [rect] ++ later
  ∧ final_of (track_elem collimator outside)
    = run (H := Reference.primitives) later marked
  ∧ length (List.filter is_drift_kick later) = 7
  ∧ particle_elem collimator 0 (cells outside)
    = Some (set6 (cells outside) (0 * 6)
              (run (H := Reference.primitives) later marked),
            pair 0 <$> ([rect] ++ later)).
Proof.
  pose (E := collimator). split; [reflexivity|].
  destruct (ltac:(let p := at_elem (@stages_after_entrance_checks_always_run) E
                  in exact p)
              outside (final_of (track_elem collimator outside))
              (trace_of (track_elem collimator outside)))
    as (f_in & f_out & Hin & Hout & Htr & Hr & Hn & Hp).
  - by vm_compute.
  - injection Hin as <-. injection Hout as <-.
    split; [exact Htr|]. split; [exact Hr|]. split; [exact Hn|].
    apply (Hp 0 (cells outside)); [reflexivity|reflexivity|by vm_compute].
Defined.

(** C3 as stated fails: at the exit the rectangular check again comes
    first. *)
Lemma exit_aperture_order_is_not_reversed :
  let rect := Call_checkiflostRectangularAp [-1; 1; -1; 1]%float in
  let ellip := Call_checkiflostEllipticalAp [1; 1]%float in
  ∃ r6' tr,
    track_elem two_apertures on_axis = Some (tt, r6', tr)
    ∧ List.filter is_aperture_check tr = [rect; ellip; rect; ellip]
    ∧ List.filter is_aperture_check tr ≠ [rect; ellip; ellip; rect].
Proof.
  eexists _, _. split; [by vm_compute|]. split; [reflexivity|].
  by intros [=].
Qed.

(** Witness of C3 (amended), on the same particle. *)
Lemma aperture_checks_rectangular_first_on_both_sides_witness :
  List.filter is_aperture_check (trace_of (track_elem two_apertures on_axis))
  = [Call_checkiflostRectangularAp [-1; 1; -1; 1]%float;
     Call_checkiflostEllipticalAp [1; 1]%float;
     Call_checkiflostRectangularAp [-1; 1; -1; 1]%float;
     Call_checkiflostEllipticalAp [1; 1]%float].
Proof.
  pose (E := two_apertures).
  refine (proj2
    (ltac:(let p :=
             at_elem (@aperture_checks_rectangular_first_on_both_sides) E
           in exact p)
       on_axis (final_of (track_elem two_apertures on_axis))
       (trace_of (track_elem two_apertures on_axis)) _)).
  by vm_compute.
Defined.

(** Witness of C4: the quadrupole with hard-edge fringes on both sides. *)
Lemma every_slice_is_the_spec_slice_witness :
  ∃ pre post,
    let integrator :=
      spec_integrator (H := Reference.primitives) 1
        [0; 0]%float [0; 1]%float 1 1 1
        (run (H := Reference.primitives) pre off_axis) in
    particle_elem (quadrupole 1 1) 0 (cells off_axis)
    = Some (set6 (cells off_axis) (0 * 6)
              (run (H := Reference.primitives)
                 (pre ++ integrator ++ post) off_axis),
            pair 0 <$> (pre ++ integrator ++ post))
    ∧ Forall (λ e, is_drift_kick e = false) pre
    ∧ Forall (λ e, is_drift_kick e = false) post
    ∧ length integrator = 7.
Proof.
  pose (E := quadrupole 1 1).
  refine (ltac:(let p := at_elem (@every_slice_is_the_spec_slice) E in exact p)
            0 (cells off_axis) off_axis _ _ _ _).
  - reflexivity.
  - reflexivity.
  - by vm_compute.
  - right. by eexists.
Defined.

(** Witness of C5: two particles through the quadrupole. *)
Lemma step_coefficients_witness :
  pass_elem (quadrupole 1 1) (cells off_axis ++ cells on_axis) 2 ≠ None
  ∧ (∃ s,
       List.filter (λ ce : nat * call, is_drift_kick ce.2)
         (calls_of (pass_elem (quadrupole 1 1)
                      (cells off_axis ++ cells on_axis) 2))
       = derived_slices 1 [0; 0]%float [0; 1]%float 1 1 s)
  ∧ ∀ c e,
      (c, e) ∈ calls_of (pass_elem (quadrupole 1 1)
                           (cells off_axis ++ cells on_axis) 2) →
      derived_from (1 / double_of_int 1)%float e.
Proof.
  split; [by vm_compute|].
  pose (E := quadrupole 1 1).
  refine (proj2 (proj2 (proj2 (proj2 (proj2 (proj2
            ltac:(let p := at_elem (@step_coefficients) E in exact p))))))
            (cells off_axis ++ cells on_axis) 2%Z
            (buffer_of (pass_elem E (cells off_axis ++ cells on_axis) 2))
            (calls_of (pass_elem E (cells off_axis ++ cells on_axis) 2)) _).
  by vm_compute.
Defined.

(** Witness of C6: the first of two particles is lost on entry. *)
Lemma already_lost_particle_untouched_witness :
  particle_elem (quadrupole 1 1) 0 lost_then_alive
  = Some (lost_then_alive, [])
  ∧ (∀ k, k < 6 →
       buffer_of (pass_elem (quadrupole 1 1) lost_then_alive 2) !! (0 * 6 + k)
       = lost_then_alive !! (0 * 6 + k))
  ∧ (∀ e, (0, e) ∉ calls_of (pass_elem (quadrupole 1 1) lost_then_alive 2))
  ∧ is_Some (pass_elem (quadrupole 1 1) lost_then_alive 2).
Proof.
  pose (E := quadrupole 1 1).
  destruct
    (ltac:(let p := at_elem (@already_lost_particle_untouched) E in exact p)
       lost_then_alive 2%Z 0 nan eq_refl eq_refl)
    as (Hown & Hpass & Hret).
  split; [apply Hown; by vm_compute|].
  destruct (Hpass (buffer_of (pass_elem E lost_then_alive 2))
                  (calls_of (pass_elem E lost_then_alive 2)))
    as [Hcells Hcalls]; [by vm_compute|].
  split; [exact Hcells|]. split; [exact Hcalls|].
  apply Hret; [simpl; lia|by vm_compute|]. right. by eexists.
Defined.

(** Witness of C8: the two particles taken in the opposite order. *)
Lemma batch_independence_witness :
  fst <$> loop (H := Reference.primitives) 1 [0; 0]%float [0; 1]%float 1 1
            1 1 None None None None None None None None
            [1; 0] (cells off_axis ++ cells outside)
  = fst <$> pass_elem (quadrupole 1 1) (cells off_axis ++ cells outside) 2
  ∧ get6 (buffer_of (pass_elem (quadrupole 1 1)
                       (cells off_axis ++ cells outside) 2)) (1 * 6)
    = particle_map (H := Reference.primitives) 1 [0; 0]%float [0; 1]%float
        1 1 1 1 None None None None None None None None outside.
Proof.
  pose (E := quadrupole 1 1).
  destruct
    (ltac:(let p := at_elem (@batch_independence) E in exact p)
       (cells off_axis ++ cells outside) 2%Z [1; 0])
    as [Horder Hmap].
  - apply perm_swap.
  - split; [exact Horder|].
    destruct (Hmap (buffer_of (pass_elem E (cells off_axis ++ cells outside) 2))
                   (calls_of (pass_elem E (cells off_axis ++ cells outside) 2)))
      as (_ & Hc & _); [by vm_compute|].
    apply (Hc 1). simpl. lia.
Defined.

(** Witness of C9: only x is a number. *)
Lemma sentinel_test_reads_x_only_witness :
  atIsNaN (r_px only_x_finite) = true ∧ atIsNaN (r_y only_x_finite) = true
  ∧ atIsNaN (r_py only_x_finite) = true
  ∧ atIsNaN (r_delta only_x_finite) = true
  ∧ atIsNaN (r_ct only_x_finite) = true
  ∧ particle_elem (quadrupole 1 1) 0 (cells only_x_finite)
    = cs ← pipeline_calls (H := Reference.primitives) 1 [0; 0]%float
           [0; 1]%float 1 1 1 1 None None None None None None None None
           only_x_finite;
      Some (set6 (cells only_x_finite) (0 * 6)
              (run (H := Reference.primitives) cs only_x_finite),
            pair 0 <$> cs).
Proof.
  do 5 (split; [reflexivity|]).
  pose (E := quadrupole 1 1).
  refine (ltac:(let p := at_elem (@sentinel_test_reads_x_only) E in exact p)
            0 (cells only_x_finite) only_x_finite _ _ _).
  - reflexivity.
  - reflexivity.
  - by vm_compute.
Defined.

(** Witness of C10: at order 0 with a one-entry [PolynomB] the read of
    [B[1]] is out of bounds; with [PolynomB[1] = 0] no fringe call is made in
    mode 1 or in mode 2. *)
Lemma fringe_reads_PolynomB_1_witness :
  MaxOrder short_PolynomB = 0%Z
  ∧ particle_elem short_PolynomB 0 (cells off_axis) = None
  ∧ ∃ r' t,
      particle_elem no_gradient 0 (cells off_axis) = Some (r', t)
      ∧ List.filter is_fringe (snd <$> t) = [].
Proof.
  split; [reflexivity|]. split.
  - pose (E := short_PolynomB).
    refine (proj1
      (ltac:(let p := at_elem (@fringe_reads_PolynomB_1) E in exact p)
         0 (cells off_axis) off_axis _ _ _) _ _).
    + reflexivity.
    + reflexivity.
    + by vm_compute.
    + by left.
    + simpl. lia.
  - pose (E := no_gradient).
    destruct
      (proj2 (proj2
         (ltac:(let p := at_elem (@fringe_reads_PolynomB_1) E in exact p)
            0 (cells off_axis) off_axis eq_refl eq_refl
            ltac:(by vm_compute)))
         0%float eq_refl)
      as (r' & t & Hp & _ & Hz).
    exists r', t. split; [exact Hp|]. by apply Hz.
Defined.

End Concrete.

(** * Further properties of the pass *)

Section Further.
Context `{Primitives}.

Variables (le : double) (A B : list double) (max_order num_int_steps : Z).
Variables (FringeQuadEntrance FringeQuadExit : Z).
Variables (fringeIntM0 fringeIntP0 : option (list double)).
Variables (T1 T2 R1 R2 RApertures EApertures : option (list double)).

Local Abbreviation track_with le' A' max_order' :=
  (track le' A' B max_order' num_int_steps FringeQuadEntrance FringeQuadExit
     fringeIntM0 fringeIntP0 T1 T2 R1 R2 RApertures EApertures).
Local Abbreviation track :=
  (track le A B max_order num_int_steps FringeQuadEntrance FringeQuadExit
     fringeIntM0 fringeIntP0 T1 T2 R1 R2 RApertures EApertures).
Local Abbreviation particle :=
  (particle le A B max_order num_int_steps FringeQuadEntrance FringeQuadExit
     fringeIntM0 fringeIntP0 T1 T2 R1 R2 RApertures EApertures).
Local Abbreviation loop :=
  (loop le A B max_order num_int_steps FringeQuadEntrance FringeQuadExit
     fringeIntM0 fringeIntP0 T1 T2 R1 R2 RApertures EApertures).
Local Abbreviation StrMPoleSymplectic4Pass :=
  (StrMPoleSymplectic4Pass le A B max_order num_int_steps
     FringeQuadEntrance FringeQuadExit
     fringeIntM0 fringeIntP0 T1 T2 R1 R2 RApertures EApertures).
Local Abbreviation useLinFrEleEntrance :=
  (useLinFrEleEntrance FringeQuadEntrance fringeIntM0 fringeIntP0).
Local Abbreviation useLinFrEleExit :=
  (useLinFrEleExit FringeQuadExit fringeIntM0 fringeIntP0).
Local Abbreviation fringe_choice :=
  (fringe_choice FringeQuadEntrance FringeQuadExit fringeIntM0 fringeIntP0 B).
Local Abbreviation rectangular_then_elliptical :=
  (rectangular_then_elliptical RApertures EApertures).
Local Abbreviation entrance_fringe :=
  (entrance_fringe FringeQuadEntrance fringeIntM0 fringeIntP0).
Local Abbreviation exit_fringe :=
  (exit_fringe FringeQuadExit fringeIntM0 fringeIntP0).
Local Abbreviation spec_integrator :=
  (spec_integrator le A B max_order num_int_steps).
Local Abbreviation fringe_calls := (fringe_calls B).
Local Abbreviation pipeline_calls :=
  (pipeline_calls le A B max_order num_int_steps
     FringeQuadEntrance FringeQuadExit
     fringeIntM0 fringeIntP0 T1 T2 R1 R2 RApertures EApertures).
Local Abbreviation spec_slice := (spec_slice le A B max_order num_int_steps).

Lemma spec_integrator_Forall (P : call → Prop) (n : nat) (r6 : R6) :
  (∀ c, is_drift_kick c = true → P c) → Forall P (spec_integrator n r6).
Proof.
  intros HP. revert r6. induction n as [|n IH]; intros r6; [constructor|].
  rewrite spec_integrator_S. apply Forall_app_2; [|apply IH].
  unfold spec_slice. repeat constructor; by apply HP.
Qed.

(** ** Misalignment *)

(** X1: the entrance misalignment is the translation [T1] followed by the
    matrix [R1], the exit misalignment is the matrix [R2] followed by the
    translation [T2] (the mirrored order), each call made when its pointer
    is given; they are the first and the last calls on the particle, and no
    stage in between translates or multiplies. *)
Theorem misalignment_is_mirrored (r6 r6' : R6) (tr : list call) :
  track r6 = Some (tt, r6', tr) →
  ∃ mid,
    tr = (opt_call T1 Call_ATaddvv ++ opt_call R1 Call_ATmultmv)
         ++ mid
         ++ (opt_call R2 Call_ATmultmv ++ opt_call T2 Call_ATaddvv)
    ∧ Forall (λ e, is_misalignment e = false) mid
    ∧ r6' = run (opt_call R2 Call_ATmultmv ++ opt_call T2 Call_ATaddvv)
              (run mid
                 (run (opt_call T1 Call_ATaddvv ++ opt_call R1 Call_ATmultmv)
                    r6)).
Proof.
  intros (f_in & f_out & Hin & Hout & Htr & Hr)%track_Some. simpl in Htr.
  exists (rectangular_then_elliptical ++ f_in
          ++ spec_integrator (Z.to_nat num_int_steps)
               (run (entrance_misalignment T1 R1
                     ++ rectangular_then_elliptical ++ f_in) r6)
          ++ f_out ++ rectangular_then_elliptical).
  split; [|split].
  - rewrite Htr. unfold entrance_misalignment, exit_misalignment.
    by rewrite <- !app_assoc.
  - repeat apply Forall_app_2.
    + apply opt_call_Forall. by intros.
    + apply opt_call_Forall. by intros.
    + eapply fringe_calls_Forall; [exact Hin|]. intros b1.
      apply fringe_call_Forall; by intros.
    + apply spec_integrator_Forall. by intros [].
    + eapply fringe_calls_Forall; [exact Hout|]. intros b1.
      apply fringe_call_Forall; by intros.
    + apply opt_call_Forall. by intros.
    + apply opt_call_Forall. by intros.
  - rewrite Hr, Htr, <- !run_app.
    unfold entrance_misalignment, exit_misalignment.
    by rewrite <- !app_assoc.
Qed.

(** ** The choice of the fringe model *)

Lemma useLinFrEle_cases (mode : Z) :
  (non_null fringeIntM0 && non_null fringeIntP0 && (mode =? 2)%Z = true
   ∧ mode = 2%Z ∧ is_Some fringeIntM0 ∧ is_Some fringeIntP0)
  ∨ (non_null fringeIntM0 && non_null fringeIntP0 && (mode =? 2)%Z = false
     ∧ (mode ≠ 2%Z ∨ fringeIntM0 = None ∨ fringeIntP0 = None)).
Proof.
  destruct fringeIntM0 as [m|], fringeIntP0 as [p|],
    (Z.eqb_spec mode 2) as [->|Hm]; simpl; eauto 10.
Qed.

Lemma track_fringe_choice (r6 r6' : R6) (tr : list call) :
  track r6 = Some (tt, r6', tr) → Forall fringe_choice tr.
Proof.
  intros (f_in & f_out & Hin & Hout & -> & _)%track_Some.
  assert (Forall fringe_choice (entrance_misalignment T1 R1))
    by (apply Forall_app_2; apply opt_call_Forall; by intros).
  assert (Forall fringe_choice (exit_misalignment T2 R2))
    by (apply Forall_app_2; apply opt_call_Forall; by intros).
  assert (Forall fringe_choice rectangular_then_elliptical)
    by (apply Forall_app_2; apply opt_call_Forall; by intros).
  assert (Forall fringe_choice f_in).
  { apply fringe_calls_cases in Hin as [[_ ->]|[Hm (b1 & Hb & ->)]];
      [constructor|].
    unfold entrance_fringe, fringe_call.
    destruct (Z.eqb_spec FringeQuadEntrance 0) as [|_]; [done|].
    destruct (nonzero b1) eqn:Hz; [|constructor].
    unfold useLinFrEleEntrance.
    destruct (useLinFrEle_cases FringeQuadEntrance)
      as [(-> & ? & ? & ?)|[-> ?]];
      (apply Forall_cons_2; [simpl; repeat split; done|constructor]). }
  assert (Forall fringe_choice f_out).
  { apply fringe_calls_cases in Hout as [[_ ->]|[Hm (b1 & Hb & ->)]];
      [constructor|].
    unfold exit_fringe, fringe_call.
    destruct (Z.eqb_spec FringeQuadExit 0) as [|_]; [done|].
    destruct (nonzero b1) eqn:Hz; [|constructor].
    unfold useLinFrEleExit.
    destruct (useLinFrEle_cases FringeQuadExit)
      as [(-> & ? & ? & ?)|[-> ?]];
      (apply Forall_cons_2; [simpl; repeat split; done|constructor]). }
  apply Forall_app_2; [apply Forall_app_2; [done|by apply Forall_app_2]|].
  apply Forall_app_2; [apply spec_integrator_Forall; by intros []|].
  apply Forall_app_2; [done|by apply Forall_app_2].
Qed.

(** X2: in a whole pass, the linear-integral fringe map is called only on a
    side whose mode is exactly 2 and only when both integral vectors are
    given, and it receives these two vectors; the hard-edge map is called
    only on a side whose mode is nonzero and is not a mode 2 with both
    vectors (so every other nonzero mode, 3 or -1 say, is hard-edge); and
    both receive the value of [B[1]], which is then not zero. *)
Theorem fringe_model_selection (r r' : list double) (num_particles : Z)
    (t : list (nat * call)) :
  StrMPoleSymplectic4Pass r num_particles = Some (r', t) →
  ∀ c e, (c, e) ∈ t → fringe_choice e.
Proof.
  intros Hp c e He.
  destruct (loop_events _ _ _ _ _ _ _ _ _ _ _ _ _ _ _ _ _ _ _ _ _ Hp He)
    as (_ & r6 & r6' & tr & _ & Ht & Hin).
  pose proof (track_fringe_choice _ _ _ Ht) as Hf.
  rewrite Forall_forall in Hf. by apply Hf.
Qed.

(** ** No slice *)

(** X3: with [NumIntSteps <= 0] the slice loop is not entered: the loop body
    makes no drift and no kick, and it does to the particle what it does
    for any other element length, [PolynomA] and [MaxOrder]. *)
Theorem no_slice_without_steps (r6 : R6) :
  (num_int_steps ≤ 0)%Z →
  (∀ le' A' max_order', track r6 = track_with le' A' max_order' r6)
  ∧ ∀ r6' tr, track r6 = Some (tt, r6', tr) →
      List.filter is_drift_kick tr = [].
Proof.
  intros Hn. assert (Z.to_nat num_int_steps = 0) as Hz by lia. split.
  - intros le' A' max_order'. rewrite !track_calls.
    unfold pipeline_calls. by rewrite Hz.
  - intros r6' tr (f_in & f_out & Hin & Hout & -> & _)%track_Some.
    rewrite Hz. simpl. rewrite !List.filter_app.
    rewrite (filter_entrance_fringe_calls B FringeQuadEntrance
               fringeIntM0 fringeIntP0 is_drift_kick false f_in)
      by (intros; first [reflexivity | assumption]).
    rewrite (filter_exit_fringe_calls B FringeQuadExit
               fringeIntM0 fringeIntP0 is_drift_kick false f_out)
      by (intros; first [reflexivity | assumption]).
    unfold entrance_misalignment, exit_misalignment,
      rectangular_then_elliptical.
    rewrite !List.filter_app.
    by rewrite !(filter_opt_call _ _ _ false) by (intros; reflexivity).
Qed.

(** ** Buffers put end to end *)

Lemma lookup_app_add (r1 r2 : list double) (i : nat) :
  (r1 ++ r2) !! (length r1 + i) = r2 !! i.
Proof. rewrite lookup_app_r by lia. f_equal. lia. Qed.

Lemma set6_app_l (r1 r2 : list double) (o : nat) (v : R6) :
  o + 6 ≤ length r1 → set6 (r1 ++ r2) o v = set6 r1 o v ++ r2.
Proof.
  intros Hl. unfold set6.
  by rewrite !insert_app_l by (rewrite ?length_insert; lia).
Qed.

Lemma set6_app_r (r1 r2 : list double) (o : nat) (v : R6) :
  set6 (r1 ++ r2) (length r1 + o) v = r1 ++ set6 r2 o v.
Proof. unfold set6. by rewrite <- !Nat.add_assoc, !insert_app_r. Qed.

Lemma get6_app_l (r1 r2 : list double) (o : nat) :
  o + 6 ≤ length r1 → get6 (r1 ++ r2) o = get6 r1 o.
Proof.
  intros Hl. apply get6_ext. intros k Hk. apply lookup_app_l. lia.
Qed.

Lemma get6_app_r (r1 r2 : list double) (o : nat) :
  get6 (r1 ++ r2) (length r1 + o) = get6 r2 o.
Proof. unfold get6. by rewrite <- !Nat.add_assoc, !lookup_app_add. Qed.

Lemma particle_app_l (c : nat) (r1 r2 : list double) :
  c * 6 + 6 ≤ length r1 →
  particle c (r1 ++ r2) = (λ b, (b.1 ++ r2, b.2)) <$> particle c r1.
Proof.
  intros Hl. unfold particle.
  destruct (INT_MAX <? Z.of_nat c * 6)%Z; [done|].
  rewrite lookup_app_l, get6_app_l by lia.
  destruct (r1 !! (c * 6)) as [x0|]; simpl; [|done].
  destruct (atIsNaN x0); [done|].
  destruct (get6 r1 (c * 6)) as [r6|]; simpl; [|done].
  destruct (track r6) as [[[[] r6'] tr]|]; simpl; [|done].
  by rewrite set6_app_l.
Qed.

Lemma particle_app_r (k c : nat) (r1 r2 : list double) :
  length r1 = k * 6 → (Z.of_nat (k + c) * 6 ≤ INT_MAX)%Z →
  particle (k + c) (r1 ++ r2)
  = (λ b, (r1 ++ b.1, renumber k b.2)) <$> particle c r2.
Proof.
  intros Hl Hi. unfold particle.
  destruct (Z.ltb_spec INT_MAX (Z.of_nat (k + c) * 6)) as [|_]; [lia|].
  destruct (Z.ltb_spec INT_MAX (Z.of_nat c * 6)) as [|_]; [lia|].
  replace ((k + c) * 6) with (length r1 + c * 6) by lia.
  rewrite lookup_app_add, get6_app_r.
  destruct (r2 !! (c * 6)) as [x0|]; simpl; [|done].
  destruct (atIsNaN x0); [done|].
  destruct (get6 r2 (c * 6)) as [r6|]; simpl; [|done].
  destruct (track r6) as [[[[] r6'] tr]|]; simpl; [|done].
  rewrite set6_app_r. unfold renumber.
  by rewrite <- list_fmap_compose.
Qed.

Lemma loop_app (cs1 cs2 : list nat) (r : list double) :
  loop (cs1 ++ cs2) r
  = '(ra, ta) ← loop cs1 r; '(rb, tb) ← loop cs2 ra; Some (rb, ta ++ tb).
Proof.
  revert r. induction cs1 as [|c cs1 IH]; intros r.
  - simpl. by destruct (loop cs2 r) as [[rb tb]|].
  - rewrite <- app_comm_cons, !loop_cons.
    destruct (particle c r) as [[r1 t1]|]; simpl; [|done].
    rewrite IH. destruct (loop cs1 r1) as [[ra ta]|]; simpl; [|done].
    destruct (loop cs2 ra) as [[rb tb]|]; simpl; [|done].
    by rewrite app_assoc.
Qed.

Lemma loop_app_l (cs : list nat) (r1 r2 : list double) :
  (∀ c, c ∈ cs → c * 6 + 6 ≤ length r1) →
  loop cs (r1 ++ r2) = (λ b, (b.1 ++ r2, b.2)) <$> loop cs r1.
Proof.
  revert r1. induction cs as [|c cs IH]; intros r1 Hcs; [done|].
  rewrite !loop_cons, particle_app_l by (apply Hcs; by left).
  destruct (particle c r1) as [[ra ta]|] eqn:Hp; simpl; [|done].
  apply particle_frame in Hp as [Hlen _].
  rewrite IH by (intros c' Hc'; rewrite Hlen; apply Hcs; by right).
  by destruct (loop cs ra) as [[rb tb]|].
Qed.

Lemma loop_app_r (k : nat) (cs : list nat) (r1 r2 : list double) :
  length r1 = k * 6 →
  (∀ c, c ∈ cs → (Z.of_nat (k + c) * 6 ≤ INT_MAX)%Z) →
  loop (Nat.add k <$> cs) (r1 ++ r2)
  = (λ b, (r1 ++ b.1, renumber k b.2)) <$> loop cs r2.
Proof.
  intros Hl. revert r2. induction cs as [|c cs IH]; intros r2 Hcs; [done|].
  rewrite fmap_cons, !loop_cons, particle_app_r
    by (first [done | apply Hcs; by left]).
  destruct (particle c r2) as [[ra ta]|]; simpl; [|done].
  rewrite IH by (intros c' Hc'; apply Hcs; by right).
  destruct (loop cs ra) as [[rb tb]|]; simpl; [|done].
  unfold renumber. by rewrite fmap_app.
Qed.

(** X5: tracking two buffers put end to end is tracking each of them: when
    the first buffer holds exactly its [n1] particles, the pass on the
    concatenation with [n1 + n2] particles yields the concatenation of the
    two results (and is undefined when one of them is), and makes the calls
    of the first pass followed by those of the second, renumbered. *)
Theorem pass_of_concatenation (r1 r2 : list double) (n1 n2 : nat) :
  length r1 = n1 * 6 →
  (Z.of_nat (n1 + n2) * 6 ≤ INT_MAX)%Z →
  StrMPoleSymplectic4Pass (r1 ++ r2) (Z.of_nat (n1 + n2))
  = '(r1', t1) ← StrMPoleSymplectic4Pass r1 (Z.of_nat n1);
    '(r2', t2) ← StrMPoleSymplectic4Pass r2 (Z.of_nat n2);
    Some (r1' ++ r2', t1 ++ renumber n1 t2).
Proof.
  intros Hl Hi. unfold StrMPoleSymplectic4Pass. rewrite !Nat2Z.id.
  rewrite List.seq_app, loop_app. simpl.
  rewrite loop_app_l by (intros c Hc%elem_of_seq; lia).
  destruct (loop (seq 0 n1) r1) as [[r1' t1]|] eqn:Hp; simpl; [|done].
  apply loop_frame in Hp as [Hlen _].
  replace (seq n1 n2) with (Nat.add n1 <$> seq 0 n2)
    by (rewrite fmap_add_seq; f_equal; lia).
  rewrite loop_app_r by (first [lia | intros c Hc%elem_of_seq; lia]).
  by destruct (loop (seq 0 n2) r2) as [[r2' t2]|].
Qed.

End Further.

(** * The entry points *)

(** The accessors in the order of the source, each taken by cases: the
    branches in which one has raised are closed by computation once the
    next [check_error()] is reached. *)
Ltac accessors ElemData :=
  destruct (atGetDouble ElemData "Length");
  destruct (atGetDoubleArray ElemData "PolynomA");
  destruct (atGetDoubleArray ElemData "PolynomB");
  destruct (atGetLong ElemData "MaxOrder");
  destruct (atGetLong ElemData "NumIntSteps");
  try reflexivity;
  destruct (atGetOptionalLong ElemData "FringeQuadEntrance" 0);
  destruct (atGetOptionalLong ElemData "FringeQuadExit" 0);
  destruct (atGetOptionalDoubleArray ElemData "fringeIntM0");
  try reflexivity;
  destruct (atGetOptionalDoubleArray ElemData "fringeIntP0");
  destruct (atGetOptionalDoubleArray ElemData "R1");
  try reflexivity;
  destruct (atGetOptionalDoubleArray ElemData "R2");
  destruct (atGetOptionalDoubleArray ElemData "T1");
  try reflexivity;
  destruct (atGetOptionalDoubleArray ElemData "T2");
  destruct (atGetOptionalDoubleArray ElemData "EApertures");
  try reflexivity;
  destruct (atGetOptionalDoubleArray ElemData "RApertures");
  try reflexivity.

Section EntryPoints.
Context `{Primitives} `{ElemAccess atElem}.

(** X8: an element that has only its five required fields -- the optional
    accessors answering the default 0 and no array -- is tracked with both
    fringe modes 0 and without misalignment or aperture: every call of the
    pass is a drift or a kick. *)
Theorem minimal_element_only_drifts_and_kicks (ElemData : atElem)
    (Length : double) (PolynomA PolynomB : list double)
    (MaxOrder NumIntSteps : Z) (r_in : list double) (num_particles : Z) :
  atGetDouble ElemData "Length" = Some Length →
  atGetDoubleArray ElemData "PolynomA" = Some PolynomA →
  atGetDoubleArray ElemData "PolynomB" = Some PolynomB →
  atGetLong ElemData "MaxOrder" = Some MaxOrder →
  atGetLong ElemData "NumIntSteps" = Some NumIntSteps →
  atGetOptionalLong ElemData "FringeQuadEntrance" 0 = Some 0%Z →
  atGetOptionalLong ElemData "FringeQuadExit" 0 = Some 0%Z →
  (∀ name,
     name ∈ ["fringeIntM0"; "fringeIntP0"; "R1"; "R2"; "T1"; "T2";
             "EApertures"; "RApertures"]%string →
     atGetOptionalDoubleArray ElemData name = Some None) →
  ∃ Elem out,
    trackFunction_ElemData ElemData None r_in num_particles
    = Some (Elem, out)
    ∧ out = StrMPoleSymplectic4Pass Length PolynomA PolynomB
              (int_of_long MaxOrder) (int_of_long NumIntSteps) 0 0
              None None None None None None None None r_in num_particles
    ∧ ∀ r' t, out = Some (r', t) →
        ∀ c e, (c, e) ∈ t → is_drift_kick e = true.
Proof.
  intros HL HA HB HM HN HE HX Hopt.
  unfold trackFunction_ElemData, make_elem.
  rewrite HL, HA, HB, HM, HN, HE, HX.
  rewrite !Hopt by (rewrite !elem_of_cons; auto 20). simpl.
  eexists _, _. split; [reflexivity|]. unfold trackFunction. simpl.
  split; [reflexivity|].
  intros r' t Hp c e He.
  destruct (loop_events _ _ _ _ _ _ _ _ _ _ _ _ _ _ _ _ _ _ _ _ _ Hp He)
    as (_ & r6 & r6' & tr & _ & Ht & Hin).
  apply track_Some in Ht as (f_in & f_out & [= <-] & [= <-] & -> & _).
  simpl in Hin. rewrite app_nil_r in Hin.
  revert Hin. generalize (Z.to_nat (int_of_long NumIntSteps)) as n.
  generalize r6. clear. intros r6 n. revert r6.
  induction n as [|n IH]; intros r6 Hin; [by apply elem_of_nil in Hin|].
  rewrite spec_integrator_S in Hin.
  apply elem_of_app in Hin as [Hin|Hin]; [|by eapply IH].
  unfold spec_slice in Hin.
  repeat (apply elem_of_cons in Hin as [->|Hin]; [done|]).
  by apply elem_of_nil in Hin.
Qed.

End EntryPoints.

Section Mex.
Context `{Primitives} `{ElemAccess mxArray} `{Matlab mxArray}.

Lemma mexFunction_make_elem (nlhs : Z) (ElemData particles : mxArray) :
  mexFunction nlhs [ElemData; particles]
  = (λ Elem, mexTracked particles
               (trackFunction Elem (mxGetPr particles)
                  (int_of_long (mxGetN particles))))
      <$> make_elem ElemData.
Proof.
  unfold mexFunction, make_elem. accessors ElemData.
Qed.


(** X10: asked for its field names, [mexFunction] fills every cell of the
    list of five required names and, when a second output is wanted, every
    cell of the list of ten optional names; the fifteen names are distinct,
    and they are all that the acquisition depends on: element data that
    answer the accessors alike on these names build the same element and
    are tracked alike. *)
Theorem field_lists_cover_what_is_read (nlhs : Z) :
  (1 < nlhs)%Z →
  ∃ required optional,
    mexFunction nlhs []
    = Some (mexFieldLists (Some <$> required) (Some (Some <$> optional)))
    ∧ length required = 5 ∧ length optional = 10
    ∧ NoDup (required ++ optional)
    ∧ ∀ e1 e2,
        (∀ name, name ∈ required ++ optional → same_field e1 e2 name) →
        make_elem e1 = make_elem e2
        ∧ ∀ nlhs' particles,
            mexFunction nlhs' [e1; particles]
            = mexFunction nlhs' [e2; particles].
Proof.
  intros Hn.
  exists ["Length"; "PolynomA"; "PolynomB"; "MaxOrder"; "NumIntSteps"]%string,
         ["FringeQuadEntrance"; "FringeQuadExit"; "fringeIntM0";
          "fringeIntP0"; "T1"; "T2"; "R1"; "R2"; "RApertures";
          "EApertures"]%string.
  split.
  { unfold mexFunction. destruct (Z.ltb_spec 1 nlhs); [reflexivity|lia]. }
  do 2 (split; [reflexivity|]).
  split; [apply (bool_decide_unpack _); by vm_compute|].
  intros e1 e2 Hsame.
  assert (make_elem e1 = make_elem e2) as Hmake.
  { apply Forall_forall in Hsame. simpl in Hsame. unfold make_elem.
    repeat (apply Forall_cons_1 in Hsame
              as [(Hd & Ha & Hl & Ho & Hoa) Hsame];
            rewrite ?Hd, ?Ha, ?Hl, ?Ho, ?Hoa; clear Hd Ha Hl Ho Hoa).
    reflexivity. }
  split; [exact Hmake|]. intros nlhs' particles.
  by rewrite !mexFunction_make_elem, Hmake.
Qed.

End Mex.

(** * The further properties on concrete inputs *)

Section FurtherConcrete.
Import Examples MoreExamples.

Ltac at_elem thm E :=
  constr:(thm Reference.primitives (Length E) (PolynomA E) (PolynomB E)
            (MaxOrder E) (NumIntSteps E) (FringeQuadEntrance E)
            (FringeQuadExit E) (fringeIntM0 E) (fringeIntP0 E)
            (T1 E) (T2 E) (R1 E) (R2 E) (RApertures E) (EApertures E)).

(** Witness of X1: an element with the four misalignment arrays. *)
Lemma misalignment_is_mirrored_witness :
  ∃ mid,
    trace_of (track_elem misaligned off_axis)
    = ([Call_ATaddvv [0.5; 0; 0; 0; 0; 0]%float] ++ [Call_ATmultmv identity6])
      ++ mid
      ++ ([Call_ATmultmv identity6]
          ++ [Call_ATaddvv [-0.5; 0; 0; 0; 0; 0]%float])
    ∧ Forall (λ e, is_misalignment e = false) mid
    ∧ final_of (track_elem misaligned off_axis)
      = run (H := Reference.primitives)
          ([Call_ATmultmv identity6]
           ++ [Call_ATaddvv [-0.5; 0; 0; 0; 0; 0]%float])
          (run (H := Reference.primitives) mid
             (run (H := Reference.primitives)
                ([Call_ATaddvv [0.5; 0; 0; 0; 0; 0]%float]
                 ++ [Call_ATmultmv identity6]) off_axis)).
Proof.
  pose (E := misaligned).
  refine (ltac:(let p := at_elem (@misalignment_is_mirrored) E in exact p)
            off_axis (final_of (track_elem E off_axis))
            (trace_of (track_elem E off_axis)) _).
  by vm_compute.
Defined.

(** Witness of X2: mode 2 with both vectors at the entrance, mode 3 at the
    exit. *)
Lemma fringe_model_selection_witness :
  head (calls_of (pass_elem modes_2_and_3 (cells off_axis) 1))
  = Some (0, Call_linearQuadFringeElegantEntrance 1
               (Some [0; 0.5; 0; 0; 0]%float) (Some [0; 0.25; 0; 0; 0]%float))
  ∧ last (calls_of (pass_elem modes_2_and_3 (cells off_axis) 1))
    = Some (0, Call_QuadFringePassN 1)
  ∧ ∀ c e, (c, e) ∈ calls_of (pass_elem modes_2_and_3 (cells off_axis) 1) →
      fringe_choice 2 3 (Some [0; 0.5; 0; 0; 0]%float)
        (Some [0; 0.25; 0; 0; 0]%float) [0; 1]%float e.
Proof.
  do 2 (split; [by vm_compute|]).
  pose (E := modes_2_and_3).
  refine (ltac:(let p := at_elem (@fringe_model_selection) E in exact p)
            (cells off_axis) (buffer_of (pass_elem E (cells off_axis) 1)) 1%Z
            (calls_of (pass_elem E (cells off_axis) 1)) _).
  by vm_compute.
Defined.

(** Witness of X3: no slice; a length of 1 or of 2 makes no difference. *)
Lemma no_slice_without_steps_witness :
  track_elem no_steps off_axis
  = track (H := Reference.primitives) 2 [1; 1]%float [0; 1]%float 5 0 1 1
      None None None None None None None None off_axis
  ∧ List.filter is_drift_kick (trace_of (track_elem no_steps off_axis)) = [].
Proof.
  pose (E := no_steps).
  destruct (ltac:(let p := at_elem (@no_slice_without_steps) E in exact p)
              off_axis ltac:(simpl; lia)) as [Hle Hnone].
  split; [exact (Hle 2%float [1; 1]%float 5%Z)|].
  apply (Hnone (final_of (track_elem E off_axis))). by vm_compute.
Defined.

(** Witness of X5: one particle, then two. *)
Lemma pass_of_concatenation_witness :
  pass_elem (quadrupole 1 1)
    (cells off_axis ++ (cells on_axis ++ cells outside)) 3
  = '(r1', t1) ← pass_elem (quadrupole 1 1) (cells off_axis) 1;
    '(r2', t2) ← pass_elem (quadrupole 1 1)
                   (cells on_axis ++ cells outside) 2;
    Some (r1' ++ r2', t1 ++ renumber 1 t2).
Proof.
  pose (E := quadrupole 1 1).
  refine (ltac:(let p := at_elem (@pass_of_concatenation) E in exact p)
            (cells off_axis) (cells on_axis ++ cells outside) 1 2 _ _).
  - reflexivity.
  - by vm_compute.
Defined.

(** Witness of X8: the minimal data. *)
Lemma minimal_element_only_drifts_and_kicks_witness :
  ∃ Elem out,
    trackFunction_ElemData (H := Reference.primitives)
      (H0 := ConcreteData.access)
      (ConcreteData.mx_struct ConcreteData.minimal) None (cells off_axis) 1
    = Some (Elem, out)
    ∧ out ≠ None
    ∧ ∀ r' t, out = Some (r', t) →
        ∀ c e, (c, e) ∈ t → is_drift_kick e = true.
Proof.
  destruct (minimal_element_only_drifts_and_kicks
              (H := Reference.primitives) (H0 := ConcreteData.access)
              (ConcreteData.mx_struct ConcreteData.minimal)
              1%float [0]%float [0]%float 0 2 (cells off_axis) 1)
    as (Elem & out & Hp & Hout & Hcalls);
    try (by vm_compute).
  - intros name Hin.
    repeat (apply elem_of_cons in Hin as [->|Hin]; [by vm_compute|]).
    by apply elem_of_nil in Hin.
  - exists Elem, out. split; [exact Hp|]. split; [|exact Hcalls].
    rewrite Hout. by vm_compute.
Defined.

(** Witness of X10: data with and without a field that is not listed. *)
Lemma field_lists_cover_what_is_read_witness :
  make_elem (H := ConcreteData.access)
    (ConcreteData.mx_struct
       (<["Name" := ConcreteData.F_long 7]> ConcreteData.with_fringes))
  = make_elem (H := ConcreteData.access)
      (ConcreteData.mx_struct ConcreteData.with_fringes)
  ∧ make_elem (H := ConcreteData.access)
      (ConcreteData.mx_struct ConcreteData.with_fringes) ≠ None.
Proof.
  split; [|by vm_compute].
  destruct (field_lists_cover_what_is_read (H := Reference.primitives)
              (H0 := ConcreteData.access) (H1 := ConcreteData.matlab) 2)
    as (required & optional & Hlists & _ & _ & _ & Hsame); [lia|].
  injection Hlists as Hreq Hopt.
  apply Hsame. intros name Hin.
  assert (name ≠ "Name"%string) as Hne.
  { intros ->. apply (list_elem_of_fmap_2 Some) in Hin.
    rewrite fmap_app, <- Hreq, <- Hopt in Hin. vm_compute in Hin.
    repeat (apply elem_of_cons in Hin as [[=]|Hin]).
    by apply elem_of_nil in Hin. }
  unfold same_field; simpl. by rewrite lookup_insert_ne.
Defined.

End FurtherConcrete.
